(** * trip-split: the ledger-balancing engine of [src/app.js]

    A shallow embedding of [calculateBalances] and [resolveSettlements]
    (src/app.js, section "SETTLEMENT CALCULATION") together with the parts of
    the JavaScript run time they rely on:

    - JavaScript numbers are IEEE 754 binary64 values: the kernel's primitive
      [float], whose operations are specified by [FloatAxioms];
    - [Math.round], [Math.min], [Math.abs] and the coercion of [undefined]
      to [NaN] follow ECMAScript;
    - an ordinary object is the list of its own properties in the order
      [Object.keys] enumerates them;
    - the [balances] argument of [resolveSettlements] is a reference into a
      heap of objects, so that what the function writes is visible. *)

From Stdlib Require Import ZArith List String Ascii Bool Lia Floats Uint63.
From Stdlib Require Import Permutation Sorted Zpower.
From stdpp Require Import gmap strings list.

Set Warnings "-inexact-float".
Import ListNotations.

(** ** JavaScript numbers *)

Module JSNum.

Local Open Scope float_scope.

(** A JavaScript number. *)
Definition number := float.

(** [ToNumber(undefined)] is [NaN]: reading a property that an object does
    not have and using it in arithmetic or in a comparison yields [NaN]. *)
Definition undefined_to_number : number := nan.

(** An integer of magnitude at most [2^53] as a number (exact). *)
Definition of_Z (n : Z) : number :=
  if (n <? 0)%Z then - of_uint63 (Uint63.of_Z (- n))
  else of_uint63 (Uint63.of_Z n).

(** [array.length] as a number. *)
Definition of_length {A} (l : list A) : number :=
  of_Z (Z.of_nat (length l)).

(** [x > y] and [x < y]: false as soon as one side is [NaN]. *)
Definition gt (x y : number) : bool := y <? x.
Definition lt (x y : number) : bool := x <? y.

Definition is_nan (x : number) : bool := negb (x =? x).

(** [Math.abs]. *)
Definition Math_abs (x : number) : number := abs x.

(** [Math.round(x)]: the integer closest to [x], a tie going to the larger
    one (towards +infinity); [NaN], the infinities and the zeros are
    returned as they are, and a result that is zero keeps the sign of [x]
    (so [Math.round(-0.2)] is [-0]).  The value of a finite [x] is
    [m * 2^e]; for [e >= 0] it is an integer already, otherwise the result
    is [floor (m * 2^e + 1/2)], computed exactly on integers. *)
Definition Math_round (x : number) : number :=
  match Prim2SF x with
  | S754_finite s m e =>
      if (0 <=? e)%Z then x
      else
        let half := Z.shiftl 1 (- e - 1) in
        let n := Z.shiftr ((if s then Z.neg m else Z.pos m) + half) (- e) in
        if (n =? 0)%Z then (if s then neg_zero else zero) else of_Z n
  | _ => x
  end.

(** [Math.min(x, y)]: [NaN] if either argument is [NaN]; [-0] is smaller
    than [+0]. *)
Definition Math_min (x y : number) : number :=
  if is_nan x || is_nan y then nan
  else if x <? y then x
  else if y <? x then y
  else if get_sign x then x else y.

(** The rounding both functions apply: [Math.round(x * 100) / 100]. *)
Definition round2 (x : number) : number := Math_round (x * 100) / 100.

(** The tolerance [0.01] of the source. *)
Definition epsilon : number := 0.01.

End JSNum.

(** ** Ordinary objects and the order of their keys *)

Module JSObject.

(** Property keys are strings, and an object is the list of its own
    properties.  The objects of the program are made by [{}] or by a
    spread, so they inherit from [Object.prototype]; what it defines
    (["toString"], ["constructor"], the accessor ["__proto__"], ...) shows
    when a key that the object does not own is written ([set]) or read
    ([get_number] below).

    [array_index k]: the integer [n] when the property key [k] is an array
    index, that is the canonical decimal spelling of an integer
    [0 <= n < 2^32 - 1].  [Object.keys] lists such keys first, in
    ascending numeric order, then the other keys in the order in which
    they were created. *)
Definition is_digit (c : ascii) : bool :=
  let n := N_of_ascii c in ((48 <=? n) && (n <=? 57))%N.

Fixpoint digits_value (s : string) (acc : N) : option N :=
  match s with
  | EmptyString => Some acc
  | String c s' =>
      if is_digit c then digits_value s' (acc * 10 + (N_of_ascii c - 48))%N
      else None
  end.

Definition array_index (k : string) : option N :=
  match k with
  | EmptyString => None
  | String c rest =>
      if (N_of_ascii c =? 48)%N then
        match rest with EmptyString => Some 0%N | _ => None end
      else
        match digits_value k 0 with
        | Some n => if (n <? 2 ^ 32 - 1)%N then Some n else None
        | None => None
        end
  end.

Section Obj.
Context {V : Type}.

(** The own properties of an object, in [Object.keys] order. *)
Definition t := list (string * V).

Definition empty : t := [].

Definition keys (o : t) : list string := map fst o.
Definition values (o : t) : list V := map snd o.

(** The own property [k] of [o]; [None] when [o] has no own property of
    that name. *)
Fixpoint get (k : string) (o : t) : option V :=
  match o with
  | [] => None
  | (k', v) :: o' => if String.eqb k k' then Some v else get k o'
  end.

Definition has (k : string) (o : t) : bool :=
  match get k o with Some _ => true | None => false end.

(** Overwrite the value of an existing property; its place is kept. *)
Fixpoint update (k : string) (v : V) (o : t) : t :=
  match o with
  | [] => []
  | (k', v') :: o' =>
      if String.eqb k k' then (k', v) :: o' else (k', v') :: update k v o'
  end.

(** Create the property whose key is the array index [n]: it goes before
    the first key that is not an array index or is a larger one. *)
Fixpoint insert_index (n : N) (k : string) (v : V) (o : t) : t :=
  match o with
  | [] => [(k, v)]
  | (k', v') :: o' =>
      match array_index k' with
      | Some n' =>
          if (n <? n')%N then (k, v) :: o
          else (k', v') :: insert_index n k v o'
      | None => (k, v) :: o
      end
  end.

(** [CreateDataProperty(o, k, v)]: the own property [k] is overwritten, or
    created at its place in the order of the keys. *)
Definition define (k : string) (v : V) (o : t) : t :=
  if has k o then update k v o
  else
    match array_index k with
    | Some n => insert_index n k v o
    | None => o ++ [(k, v)]
    end.

(** [o[k] = v] for an object whose prototype is [Object.prototype] (one
    made by [{}] or by a spread) and a value [v] that is no object.  An own
    property is overwritten and a missing one is created, but for the key
    ["__proto__"]: when [o] has no own property of that name the
    assignment calls the setter that [Object.prototype] has for it, which
    leaves [o] as it is. *)
Definition set (k : string) (v : V) (o : t) : t :=
  if String.eqb k "__proto__" && negb (has k o) then o else define k v o.

(** The representation invariant: no key occurs twice. *)
Definition wf (o : t) : Prop := List.NoDup (keys o).

(** [o] has no own property ["__proto__"]: so it is of [{}] and of what
    assignments make of it. *)
Definition no_own_proto (o : t) : Prop := get "__proto__" o = None.

(** [{ ...o }]: a new object with the same own properties, created in
    [Object.keys] order.  The copy defines its properties, so an own
    property ["__proto__"] is copied like any other. *)
Definition spread (o : t) : t :=
  fold_left (fun acc kv => define (fst kv) (snd kv) acc) o empty.

End Obj.

Arguments t : clear implicits.

End JSObject.

Import JSNum.

(** [o[k]] used as a number.  An own property is read as it is.  Without
    one, [o[k]] is [undefined] or, under a name that [Object.prototype]
    defines, what is inherited (a function; for ["__proto__"] the prototype
    itself), and arithmetic reads [NaN] in both cases.  With [+=] an
    inherited function gives a text (the source of the function followed by
    the digits of [x]) where [undefined] gives [NaN]; one more [+=]
    lengthens the text, and [-=] and the rounding at the end read it as
    [NaN].  The value kept here is the number that arithmetic reads:
    [NaN]. *)
Definition get_number (k : string) (o : JSObject.t number) : number :=
  match JSObject.get k o with
  | Some v => v
  | None => undefined_to_number
  end.

(** [o[k] += x] and [o[k] -= x]: a read, then the assignment [set], which
    does nothing for the key ["__proto__"] that [o] does not own. *)
Definition add_assign (k : string) (x : number) (o : JSObject.t number)
  : JSObject.t number :=
  JSObject.set k (get_number k o + x)%float o.

Definition sub_assign (k : string) (x : number) (o : JSObject.t number)
  : JSObject.t number :=
  JSObject.set k (get_number k o - x)%float o.

(** ** The data model *)

Record Person := mkPerson {
  person_id : string;
  person_name : string
}.

Record Expense := mkExpense {
  expense_id : string;
  title : string;
  amount : number;
  paidBy : string;
  participants : list string;
  createdAt : number
}.

Record Trip := mkTrip {
  trip_id : string;
  trip_name : string;
  budget : option number;
  persons : list Person;
  expenses : list Expense
}.

(** A transfer [{from, to, amount}]. *)
Record Settlement := mkSettlement {
  from : string;
  to : string;
  settlement_amount : number
}.

(** ** [calculateBalances] (src/app.js, lines 392-422) *)

(** [trip.persons.forEach(person => { balances[person.id] = 0; })] *)
Definition init_balances (ps : list Person) : JSObject.t number :=
  fold_left (fun balances person => JSObject.set (person_id person) 0%float balances)
            ps JSObject.empty.

(** The body of [trip.expenses.forEach]. *)
Definition process_expense (balances : JSObject.t number) (expense : Expense)
  : JSObject.t number :=
  let split := (amount expense / of_length (participants expense))%float in
  let balances := add_assign (paidBy expense) (amount expense) balances in
  fold_left (fun balances participantId => sub_assign participantId split balances)
            (participants expense) balances.

(** [Object.keys(balances).forEach(personId => { balances[personId] =
    Math.round(balances[personId] * 100) / 100; })] *)
Definition round_balances (balances : JSObject.t number) : JSObject.t number :=
  fold_left (fun balances personId =>
               JSObject.set personId (round2 (get_number personId balances)) balances)
            (JSObject.keys balances) balances.

(** [trip] is [None] when the argument is [null] or [undefined]. *)
Definition calculateBalances (trip : option Trip) : JSObject.t number :=
  match trip with
  | None => JSObject.empty
  | Some trip =>
      match persons trip with
      | [] => JSObject.empty
      | _ :: _ =>
          let balances := init_balances (persons trip) in
          let balances := fold_left process_expense (expenses trip) balances in
          round_balances balances
      end
  end.

(** [Object.values(balances).reduce((a, b) => a + b, 0)], the sum the
    self-test checks (src/app.js, line 2207). *)
Definition sum_balances (balances : JSObject.t number) : number :=
  fold_left (fun a b => (a + b)%float) (JSObject.values balances) 0%float.

(** ** [resolveSettlements] (src/app.js, lines 431-489) *)

(** *** The heap

    [resolveSettlements] receives [balances] by reference and creates two
    objects of its own, [personMap] and [workingBalances].  A heap is the
    list of the objects allocated so far; a reference is an index into it. *)

Abbreviation loc := nat.

Inductive HeapObj :=
| NumObj (o : JSObject.t number)     (** property values are numbers *)
| NameObj (m : gmap string string).  (** property values are names *)

Abbreviation Heap := (list HeapObj).

Definition alloc (o : HeapObj) (h : Heap) : loc * Heap :=
  (length h, h ++ [o]).

(** [personMap[k] = v] for the object at [l]; [v] is a text.  As in
    [JSObject.set], the key ["__proto__"] that the object does not own
    reaches the setter of [Object.prototype], which leaves the object as
    it is. *)
Definition set_name (l : loc) (k v : string) (h : Heap) : Heap :=
  match h !! l with
  | Some (NameObj m) =>
      if String.eqb k "__proto__" && bool_decide (m !! k = None) then h
      else <[l := NameObj (<[k := v]> m)]> h
  | _ => h
  end.

(** [persons.forEach(person => { personMap[person.id] = person.name; })] *)
Definition fill_person_map (personMap : loc) (persons : list Person) (h : Heap)
  : Heap :=
  fold_left (fun h person =>
               set_name personMap (person_id person) (person_name person) h)
            persons h.

(** *** The working lists *)

(** An element [{ id, amount }] of [creditors] or [debtors]. *)
Record Entry := mkEntry {
  entry_id : string;
  entry_amount : number
}.

(** The body of [Object.keys(workingBalances).forEach]: [acc] is the pair
    [(creditors, debtors)]. *)
Definition classify (workingBalances : JSObject.t number)
    (acc : list Entry * list Entry) (personId : string)
  : list Entry * list Entry :=
  let balance := get_number personId workingBalances in
  if gt balance 0.01%float then
    (fst acc ++ [mkEntry personId balance], snd acc)
  else if lt balance (-0.01)%float then
    (fst acc, snd acc ++ [mkEntry personId (Math_abs balance)])
  else acc.

(** [Array.prototype.sort(comparefn)].  ECMAScript reads the comparator's
    result [v] as "x after y" when [v > 0] (a [NaN] counts as [+0]); the sort
    is stable, and for a consistent comparator every stable sort returns the
    same array, the one this insertion sort builds. *)
Fixpoint sort_insert {A} (comparefn : A -> A -> number) (x : A) (l : list A)
  : list A :=
  match l with
  | [] => [x]
  | y :: l' =>
      if gt (comparefn x y) 0%float then y :: sort_insert comparefn x l'
      else x :: l
  end.

Definition Array_sort {A} (comparefn : A -> A -> number) (l : list A) : list A :=
  fold_right (sort_insert comparefn) [] l.

(** [(a, b) => b.amount - a.amount] *)
Definition by_amount_desc (a b : Entry) : number :=
  (entry_amount b - entry_amount a)%float.

(** *** The matching loop *)

Record LoopState := mkLoopState {
  creditors : list Entry;
  debtors : list Entry;
  settlements : list Settlement
}.

(** [creditors.length > 0 && debtors.length > 0] *)
Definition loop_cond (st : LoopState) : bool :=
  match creditors st, debtors st with
  | _ :: _, _ :: _ => true
  | _, _ => false
  end.

(** One iteration of the [while] loop.  [creditor] and [debtor] are the
    objects at index 0, so [creditor.amount -= payment] changes the element
    of the array. *)
Definition loop_body (st : LoopState) : LoopState :=
  match creditors st, debtors st with
  | creditor :: cs, debtor :: ds =>
      let payment := Math_min (entry_amount creditor) (entry_amount debtor) in
      let settlements' :=
        if gt payment 0.01%float then
          settlements st ++
            [mkSettlement (entry_id debtor) (entry_id creditor)
                          (Math_round (payment * 100) / 100)%float]
        else settlements st in
      let creditor' :=
        mkEntry (entry_id creditor) (entry_amount creditor - payment)%float in
      let debtor' :=
        mkEntry (entry_id debtor) (entry_amount debtor - payment)%float in
      let creditors' :=
        if lt (entry_amount creditor') 0.01%float then cs else creditor' :: cs in
      let debtors' :=
        if lt (entry_amount debtor') 0.01%float then ds else debtor' :: ds in
      mkLoopState creditors' debtors' settlements'
  | _, _ => st
  end.

(** The [while] loop; [None] when [fuel] iterations were not enough. *)
Fixpoint while_loop (fuel : nat) (st : LoopState) : option LoopState :=
  if loop_cond st then
    match fuel with
    | O => None
    | S fuel' => while_loop fuel' (loop_body st)
    end
  else Some st.

(** The state after [n] iterations (fewer when the loop has ended). *)
Fixpoint iterate (n : nat) (st : LoopState) : LoopState :=
  match n with
  | O => st
  | S n' => if loop_cond st then iterate n' (loop_body st) else st
  end.

(** The working lists as the loop first sees them: classified in
    [Object.keys] order, then sorted. *)
Definition initial_state (workingBalances : JSObject.t number) : LoopState :=
  let '(creditors, debtors) :=
    fold_left (classify workingBalances) (JSObject.keys workingBalances) ([], []) in
  let creditors := Array_sort by_amount_desc creditors in
  let debtors := Array_sort by_amount_desc debtors in
  mkLoopState creditors debtors [].

(** [resolveSettlements(balances, persons)] run on the heap [h].  The result
    is the heap it leaves and the array it returns; [None] when the loop did
    not end within [fuel] iterations, or when [balances] does not refer to a
    balance object of [h]. *)
Definition resolveSettlements (fuel : nat) (balances : loc)
    (persons : list Person) (h : Heap) : option (Heap * list Settlement) :=
  let '(personMap, h) := alloc (NameObj ∅) h in
  let h := fill_person_map personMap persons h in
  match h !! balances with
  | Some (NumObj b) =>
      let wb := JSObject.spread b in
      let '(workingBalances, h) := alloc (NumObj wb) h in
      match while_loop fuel (initial_state wb) with
      | Some st => Some (h, settlements st)
      | None => None
      end
  | _ => None
  end.

(** The loop diverges from [st]: no number of iterations ends it. *)
Definition diverges (st : LoopState) : Prop :=
  forall fuel, while_loop fuel st = None.

(** ** Applying settlements to balances *)

(** A settlement applied as a payment: [from] hands [amount] to [to], so the
    payer's balance rises and the payee's falls. *)
Definition pay (balances : JSObject.t number) (s : Settlement)
  : JSObject.t number :=
  sub_assign (to s) (settlement_amount s)
             (add_assign (from s) (settlement_amount s) balances).

(** A settlement applied as the specification words it: subtract the amount
    from [from]'s balance and add it to [to]'s. *)
Definition apply_as_worded (balances : JSObject.t number) (s : Settlement)
  : JSObject.t number :=
  add_assign (to s) (settlement_amount s)
             (sub_assign (from s) (settlement_amount s) balances).

(** Every balance is within [epsilon] of 0. *)
Definition all_settled (balances : JSObject.t number) : bool :=
  forallb (fun b => (Math_abs b <=? epsilon)%float) (JSObject.values balances).

(** ** The balance of one person on its own *)

(** What [process_expense] does to the property [k] alone: [bal] is the
    value of [balances[k]] before the expense, [None] when the object has no
    such property yet ([undefined], which arithmetic reads as [NaN]). *)
Definition own_value (bal : option number) : number :=
  match bal with
  | Some v => v
  | None => undefined_to_number
  end.

Definition own_step (k : string) (bal : option number) (expense : Expense)
  : option number :=
  let split := (amount expense / of_length (participants expense))%float in
  let bal :=
    if String.eqb k (paidBy expense)
    then Some (own_value bal + amount expense)%float else bal in
  fold_left (fun bal participantId =>
               if String.eqb k participantId
               then Some (own_value bal - split)%float else bal)
            (participants expense) bal.

(** [k] is the id of a person of the list. *)
Definition is_person (k : string) (ps : list Person) : bool :=
  existsb (fun person => String.eqb k (person_id person)) ps.

(** Every id an expense mentions is the id of a person of the trip. *)
Definition ids_valid (trip : Trip) : Prop :=
  forall expense, In expense (expenses trip) ->
    is_person (paidBy expense) (persons trip) = true /\
    forall participantId, In participantId (participants expense) ->
      is_person participantId (persons trip) = true.

(** [k] is mentioned by the expense, as payer or as participant. *)
Definition mentions (expense : Expense) (k : string) : Prop :=
  paidBy expense = k \/ In k (participants expense).

(** The trip with another list of expenses. *)
Definition with_expenses (trip : Trip) (es : list Expense) : Trip :=
  mkTrip (trip_id trip) (trip_name trip) (budget trip) (persons trip) es.

(** ** The calculator as the specification words it (section 4.1)

    Every person of the trip starts at 0; each expense credits its full
    amount to the payer and debits [amount / |participants|] from every
    participant; at the end every balance is rounded to 2 decimal places.
    The rounding is a parameter: the specification names round half away
    from zero and round half to even. *)

Definition spec_expense_effect (k : string) (bal : number) (expense : Expense)
  : number :=
  let split := (amount expense / of_length (participants expense))%float in
  let bal :=
    if String.eqb k (paidBy expense) then (bal + amount expense)%float else bal in
  fold_left (fun bal participantId =>
               if String.eqb k participantId then (bal - split)%float else bal)
            (participants expense) bal.

Definition spec_calculateBalances (rounding : number -> number) (trip : Trip)
    (k : string) : option number :=
  if is_person k (persons trip)
  then Some (rounding (fold_left (spec_expense_effect k) (expenses trip) 0%float))
  else None.

(** Rounding to an integer, a tie going away from zero. *)
Definition round_half_away (x : number) : number :=
  match Prim2SF x with
  | S754_finite s m e =>
      if (0 <=? e)%Z then x
      else
        let half := Z.shiftl 1 (- e - 1) in
        let a := Z.shiftr (Z.pos m + half) (- e) in
        if (a =? 0)%Z then (if s then neg_zero else zero)
        else of_Z (if s then - a else a)
  | _ => x
  end.

(** Rounding to an integer, a tie going to the even neighbour. *)
Definition round_half_even (x : number) : number :=
  match Prim2SF x with
  | S754_finite s m e =>
      if (0 <=? e)%Z then x
      else
        let half := Z.shiftl 1 (- e - 1) in
        let q := Z.shiftr (Z.pos m) (- e) in
        let r := Z.land (Z.pos m) (Z.shiftl 1 (- e) - 1) in
        let a :=
          if (r <? half)%Z then q
          else if (half <? r)%Z then (q + 1)%Z
          else if Z.even q then q else (q + 1)%Z in
        if (a =? 0)%Z then (if s then neg_zero else zero)
        else of_Z (if s then - a else a)
  | _ => x
  end.

(** The two roundings at scale 100. *)
Definition round2_half_away (x : number) : number :=
  (round_half_away (x * 100) / 100)%float.

Definition round2_half_even (x : number) : number :=
  (round_half_even (x * 100) / 100)%float.

(** ** Shapes of the working lists *)

(** The entries that [classify] appends for the keys [ks], in that order. *)
Definition creditor_entries (wb : JSObject.t number) (ks : list string)
  : list Entry :=
  map (fun k => mkEntry k (get_number k wb))
      (List.filter (fun k => gt (get_number k wb) 0.01%float) ks).

Definition debtor_entries (wb : JSObject.t number) (ks : list string)
  : list Entry :=
  map (fun k => mkEntry k (Math_abs (get_number k wb)))
      (List.filter (fun k => negb (gt (get_number k wb) 0.01%float) &&
                             lt (get_number k wb) (-0.01)%float) ks).

(** The array a run returns, the heap left aside. *)
Definition returned (res : option (Heap * list Settlement))
  : option (list Settlement) :=
  option_map snd res.

(** The settlement records a payment above the threshold, rounded. *)
Definition from_significant_payment (s : Settlement) : Prop :=
  exists payment,
    gt payment 0.01%float = true /\ settlement_amount s = round2 payment.

(** In the balances [wb], [k] is owed more than 0.01. *)
Definition creditor_key (wb : JSObject.t number) (k : string) : Prop :=
  gt (get_number k wb) 0.01%float = true.

(** In the balances [wb], [k] owes more than 0.01. *)
Definition debtor_key (wb : JSObject.t number) (k : string) : Prop :=
  lt (get_number k wb) (-0.01)%float = true.

(** The entry at index 0 is a largest one of the list. *)
Definition head_is_largest (l : list Entry) : bool :=
  match l with
  | [] => true
  | x :: l' => forallb (fun y => (entry_amount y <=? entry_amount x)%float) l'
  end.

(** [a] comes before [b] in an array sorted in descending order of amount. *)
Definition amount_ge (a b : Entry) : Prop :=
  (entry_amount b <=? entry_amount a)%float = true.

(** [x] is [Infinity] or [-Infinity]. *)
Definition is_infinite (x : number) : bool :=
  match Prim2SF x with
  | S754_infinity _ => true
  | _ => false
  end.

(** An amount that is at least the threshold (so not [NaN]). *)
Definition at_least_epsilon (a : number) : Prop := (epsilon <=? a)%float = true.

(** Within 0.01 of 0, the bound left out. *)
Definition below_threshold (x : number) : Prop :=
  (Math_abs x <? 0.01)%float = true.

(** An amount of a working list: at least the threshold, or [NaN]. *)
Definition live (a : number) : Prop :=
  at_least_epsilon a \/ is_nan a = true.

Definition entry_ok (e : Entry) : Prop := at_least_epsilon (entry_amount e).

Definition entry_finite (e : Entry) : Prop := is_infinite (entry_amount e) = false.

Definition head_finite (l : list Entry) : Prop :=
  match l with
  | [] => True
  | e :: _ => entry_finite e
  end.

(** What the loop keeps true when no balance is infinite: every amount in
    the lists is at least the threshold, every entry behind the front one
    is finite, and one of the two front entries is finite. *)
Definition loop_invariant (st : LoopState) : Prop :=
  Forall entry_ok (creditors st) /\ Forall entry_ok (debtors st) /\
  Forall entry_finite (tl (creditors st)) /\
  Forall entry_finite (tl (debtors st)) /\
  (head_finite (creditors st) \/ head_finite (debtors st)).

(** The list is empty or has an infinite amount in front. *)
Definition front_infinite (l : list Entry) : Prop :=
  match l with
  | [] => True
  | e :: _ => entry_amount e = infinity
  end.

(** One side is owed or owes without bound and the other side is finite:
    the infinite front entry stays, and each iteration settles the front
    entry of the finite side. *)
Definition one_sided (infinite finite : list Entry) : Prop :=
  front_infinite infinite /\ Forall entry_ok finite /\ Forall entry_finite finite.

(** What the loop keeps true when the balances do not hold both an infinite
    credit and an infinite debt. *)
Definition settling (st : LoopState) : Prop :=
  loop_invariant st \/
  one_sided (creditors st) (debtors st) \/
  one_sided (debtors st) (creditors st).

(** Both front entries hold [NaN]. *)
Definition fronts_nan (st : LoopState) : Prop :=
  exists c cs d ds,
    creditors st = c :: cs /\ debtors st = d :: ds /\
    entry_amount c = nan /\ entry_amount d = nan.

(** The number of entries still in the working lists. *)
Definition remaining (st : LoopState) : nat :=
  length (creditors st) + length (debtors st).

(** No amount of fuel makes the call return. *)
Definition never_returns (balances : loc) (persons : list Person) (h : Heap)
  : Prop :=
  forall fuel, resolveSettlements fuel balances persons h = None.

(** Creditor entries carry creditor keys, debtor entries debtor keys, and
    every settlement goes from a debtor key to a creditor key. *)
Definition roles_kept (wb : JSObject.t number) (st : LoopState) : Prop :=
  Forall (fun e => creditor_key wb (entry_id e)) (creditors st) /\
  Forall (fun e => ~ creditor_key wb (entry_id e) /\ debtor_key wb (entry_id e))
         (debtors st) /\
  Forall (fun s => (~ creditor_key wb (from s) /\ debtor_key wb (from s)) /\
                   creditor_key wb (to s))
         (settlements st).

(** ** The payments of a run *)

(** The payments of the first [n] iterations of the loop from [st], in
    order and before they are rounded: [from] is the debtor at index 0,
    [to] the creditor at index 0 and the amount
    [Math.min(creditor.amount, debtor.amount)] (src/app.js, lines 462-465). *)
Fixpoint payments (n : nat) (st : LoopState) : list Settlement :=
  match n with
  | O => []
  | S n' =>
      match creditors st, debtors st with
      | creditor :: _, debtor :: _ =>
          mkSettlement (entry_id debtor) (entry_id creditor)
            (Math_min (entry_amount creditor) (entry_amount debtor))
          :: payments n' (loop_body st)
      | _, _ => []
      end
  end.

(** What the loop records of the payments (src/app.js, lines 467-473):
    those above 0.01, with the amount rounded to 2 decimals. *)
Definition recorded (ps : list Settlement) : list Settlement :=
  map (fun p => mkSettlement (from p) (to p) (round2 (settlement_amount p)))
      (List.filter (fun p => gt (settlement_amount p) 0.01%float) ps).

(** The ids of the entries still in the working lists. *)
Definition listed (st : LoopState) : list string :=
  map entry_id (creditors st) ++ map entry_id (debtors st).

(** How the balances [bn], to which the payments made so far have been
    applied, stand to the working lists of [st]; [b] holds the balances
    before any payment. *)
Record ledger (b : JSObject.t number) (st : LoopState)
    (bn : JSObject.t number) : Prop := mkLedger {
  ledger_keys : JSObject.keys bn = JSObject.keys b;
  ledger_nodup : List.NoDup (listed st);
  ledger_listed : forall k, In k (listed st) -> In k (JSObject.keys b);
  ledger_creditors : forall e,
    In e (creditors st) -> get_number (entry_id e) bn = entry_amount e;
  ledger_debtors : forall e,
    In e (debtors st) -> get_number (entry_id e) bn = (- entry_amount e)%float;
  ledger_live : forall e,
    In e (creditors st) \/ In e (debtors st) -> live (entry_amount e);
  ledger_left : forall k,
    creditor_key b k \/ debtor_key b k ->
    In k (listed st) \/ below_threshold (get_number k bn);
  ledger_others : forall k,
    ~ creditor_key b k -> ~ debtor_key b k ->
    JSObject.get k bn = JSObject.get k b
}.

(** ** The threshold in binary64 *)

Module Binary64.

(** The representation of [0.01]: [eps_m * 2 ^ eps_e]. *)
Definition eps_m : positive := 5764607523034235.
Definition eps_e : Z := (-59)%Z.

(** A number [>= 0.01]: a positive finite number or [+infinity]. *)
Definition at_least_eps (X : spec_float) : Prop :=
  SFleb (S754_finite false eps_m eps_e) X = true.

(** The exponent of the smallest positive number. *)
Abbreviation emin := (SpecFloat.emin prec emax).

(** The representation of [100]: [hundred_m * 2 ^ hundred_e]. *)
Definition hundred_m : positive := 7036874417766400.
Definition hundred_e : Z := (-46)%Z.

(** [X] is [+infinity] or a positive number whose leading bit has weight at
    least [2 ^ (k - 1)]: [X >= 2 ^ (k - 1)]. *)
Definition mag_ge (k : Z) (X : spec_float) : Prop :=
  X = S754_infinity false \/
  exists m e, X = S754_finite false m e /\ (k <= Z.pos (digits2_pos m) + e)%Z.

End Binary64.

(** ** Scenarios *)

Module Scenarios.

Local Open Scope string_scope.

(** A person whose id is its name. *)
Definition person (name : string) : Person := mkPerson name name.

Definition expense (amt : number) (payer : string) (among : list string)
  : Expense :=
  mkExpense "expense" "Expense" amt payer among 0%float.

Definition trip_of (ps : list string) (es : list Expense) : Trip :=
  mkTrip "trip" "Trip" None (map person ps) es.

(** The trip of [runSelfTest] (src/app.js, lines 2106-2132). *)
Definition goa : Trip :=
  mkTrip "trip" "Goa" None
    [mkPerson "person_a" "A"; mkPerson "person_b" "B"; mkPerson "person_c" "C"]
    [mkExpense "expense_1" "Expense 1" 300%float "person_a"
               ["person_a"; "person_b"; "person_c"] 0%float;
     mkExpense "expense_2" "Expense 2" 300%float "person_b"
               ["person_b"; "person_c"] 1%float].

(** Seven persons share one expense of 100 that A paid. *)
Definition seven : Trip :=
  trip_of ["A"; "B"; "C"; "D"; "E"; "F"; "G"]
          [expense 100%float "A" ["A"; "B"; "C"; "D"; "E"; "F"; "G"]].

(** A paid 0.75 for B and C: each owes 0.375, and 37.5 is a tie. *)
Definition three_quarters : Trip :=
  trip_of ["A"; "B"; "C"] [expense 0.75%float "A" ["B"; "C"]].

(** An expense of 10 that A paid, with no participant. *)
Definition no_participants : Trip :=
  trip_of ["A"; "B"] [expense 10%float "A" []].

(** An expense of 10 for A, paid by an id that is no person of the trip. *)
Definition dangling : Trip :=
  trip_of ["A"] [expense 10%float "ghost" ["A"]].

(** Amounts of a few cents: A paid 0.29 for B and 0.01 for C, D paid 0.01
    for C. *)
Definition cents : Trip :=
  trip_of ["A"; "B"; "C"; "D"]
          [expense 0.29%float "A" ["B"];
           expense 0.01%float "A" ["C"];
           expense 0.01%float "D" ["C"]].

(** One expense of 1e307 that A paid for B. *)
Definition huge : Trip :=
  trip_of ["A"; "B"] [expense 1e307%float "A" ["B"]].

(** C paid 2.47 for A and B: each owes 1.235, which [Math.round] takes to
    1.24. *)
Definition odd_cent : Trip :=
  trip_of ["A"; "B"; "C"] [expense 2.47%float "C" ["A"; "B"]].

(** One expense of 1e307 that A paid for ten others. *)
Definition huge_for_ten : Trip :=
  trip_of ["A"; "B"; "C"; "D"; "E"; "F"; "G"; "H"; "I"; "J"; "K"]
          [expense 1e307%float "A"
                   ["B"; "C"; "D"; "E"; "F"; "G"; "H"; "I"; "J"; "K"]].

(** Two creditors and three debtors. *)
Definition chain : JSObject.t number :=
  [("A", 10%float); ("B", 9%float);
   ("C", (-8)%float); ("D", (-7)%float); ("E", (-4)%float)].

(** The heap that holds the object [b] alone, at reference 0. *)
Definition heap_of (b : JSObject.t number) : Heap := [NumObj b].

End Scenarios.

(** * Properties *)

(** ** Tactics *)

(** Two numbers differ as soon as their binary representations do. *)
Ltac float_neq H :=
  apply (f_equal Prim2SF) in H; vm_compute in H; discriminate H.

(** Linear arithmetic with the parameters of the binary64 format written
    out. *)
Ltac format_lia :=
  unfold SpecFloat.emin, prec, emax, Binary64.eps_e, Binary64.hundred_e in *; lia.

(** Case analysis on the condition of the conditional in the goal. *)
Ltac case_if :=
  match goal with |- context [if ?b then _ else _] => destruct b end.

(** Membership in a list written out. *)
Ltac in_cases H :=
  repeat (destruct H as [H|H]; [subst|]); try contradiction.


(** ** Objects: reads after writes, and the set of keys *)

Module JSObjectFacts.
Import JSObject.

Section Facts.
Context {V : Type}.
Implicit Types (o : JSObject.t V) (k : string) (v : V).

Lemma has_In k o : has k o = true <-> In k (keys o).
Proof.
  unfold has. induction o as [|[k' v'] o IH]; simpl.
  - split; [discriminate | tauto].
  - destruct (String.eqb_spec k k') as [->|Hne].
    + split; auto.
    + rewrite IH. split; [tauto | intros [H|H]; [congruence | exact H]].
Qed.

Lemma has_false_not_In k o : has k o = false <-> ~ In k (keys o).
Proof.
  rewrite <- has_In. destruct (has k o); split; congruence.
Qed.

Lemma get_None_not_In k o : get k o = None <-> ~ In k (keys o).
Proof.
  rewrite <- has_false_not_In. unfold has.
  destruct (get k o); split; congruence.
Qed.

Lemma get_In_keys k v o : get k o = Some v -> In k (keys o).
Proof.
  intros H. apply has_In. unfold has. now rewrite H.
Qed.

Lemma In_keys_get k o : In k (keys o) -> exists v, get k o = Some v.
Proof.
  intros H. apply has_In in H. unfold has in H.
  destruct (get k o) as [v|]; [now exists v | discriminate].
Qed.

Lemma keys_update k v o : keys (update k v o) = keys o.
Proof.
  induction o as [|[k' v'] o IH]; simpl; [reflexivity|].
  destruct (String.eqb k k'); simpl; [reflexivity | now rewrite IH].
Qed.

Lemma get_update k' k v o :
  get k' (update k v o) =
  if String.eqb k' k then option_map (fun _ => v) (get k o) else get k' o.
Proof.
  induction o as [|[k0 v0] o IH]; simpl.
  - now destruct (String.eqb k' k).
  - destruct (String.eqb_spec k k0) as [->|Hne]; simpl.
    + destruct (String.eqb_spec k' k0); reflexivity.
    + destruct (String.eqb_spec k' k0) as [->|Hne'].
      * destruct (String.eqb_spec k0 k); [congruence | reflexivity].
      * exact IH.
Qed.

Lemma keys_insert_index n k v o :
  exists l1 l2, keys o = l1 ++ l2 /\ keys (insert_index n k v o) = l1 ++ k :: l2.
Proof.
  induction o as [|[k' v'] o IH]; simpl.
  - now exists [], [].
  - destruct (array_index k') as [n'|].
    + destruct (n <? n')%N.
      * now exists [], (k' :: keys o).
      * destruct IH as (l1 & l2 & E1 & E2).
        exists (k' :: l1), l2. simpl. now rewrite E1, E2.
    + now exists [], (k' :: keys o).
Qed.

Lemma get_insert_index k' n k v o :
  ~ In k (keys o) ->
  get k' (insert_index n k v o) = if String.eqb k' k then Some v else get k' o.
Proof.
  induction o as [|[k0 v0] o IH]; simpl; intros Hk.
  - reflexivity.
  - assert (Hne : k <> k0) by (intros ->; apply Hk; now left).
    assert (Hk' : ~ In k (keys o)) by (intros H; apply Hk; now right).
    destruct (array_index k0) as [n'|]; [destruct (n <? n')%N|]; simpl;
      try reflexivity.
    rewrite (IH Hk').
    destruct (String.eqb_spec k' k0) as [->|]; [|reflexivity].
    destruct (String.eqb_spec k0 k); [congruence | reflexivity].
Qed.

Lemma get_app_new k' k v o :
  ~ In k (keys o) ->
  get k' (o ++ [(k, v)]) = if String.eqb k' k then Some v else get k' o.
Proof.
  induction o as [|[k0 v0] o IH]; simpl; intros Hk.
  - reflexivity.
  - rewrite IH by (intros H; apply Hk; now right).
    destruct (String.eqb_spec k' k0) as [->|]; [|reflexivity].
    destruct (String.eqb_spec k0 k) as [->|]; [|reflexivity].
    exfalso. apply Hk. now left.
Qed.

(** Reading [k'] after [o[k] = v]. *)
Lemma get_define k' k v o :
  get k' (define k v o) = if String.eqb k' k then Some v else get k' o.
Proof.
  unfold define. destruct (has k o) eqn:Hhas.
  - rewrite get_update. unfold has in Hhas.
    destruct (get k o); [reflexivity | discriminate].
  - apply has_false_not_In in Hhas.
    destruct (array_index k).
    + now apply get_insert_index.
    + now apply get_app_new.
Qed.

(** The keys after [o[k] = v]: unchanged when [k] was a key, else [k] is
    added at one place. *)
Lemma keys_define k v o :
  (In k (keys o) /\ keys (define k v o) = keys o) \/
  (~ In k (keys o) /\
   exists l1 l2, keys o = l1 ++ l2 /\ keys (define k v o) = l1 ++ k :: l2).
Proof.
  unfold define. destruct (has k o) eqn:Hhas.
  - left. split; [now apply has_In | apply keys_update].
  - right. split; [now apply has_false_not_In|].
    destruct (array_index k).
    + apply keys_insert_index.
    + exists (keys o), []. unfold keys. rewrite map_app, app_nil_r. now simpl.
Qed.

Lemma In_keys_define k' k v o :
  In k' (keys (define k v o)) <-> k' = k \/ In k' (keys o).
Proof.
  destruct (keys_define k v o) as [[Hin E]|[Hnin (l1 & l2 & E1 & E2)]].
  - rewrite E. split; [tauto | intros [->|]; assumption].
  - rewrite E2, E1, !in_app_iff. simpl. split; intros H; intuition congruence.
Qed.

Lemma wf_define k v o : wf o -> wf (define k v o).
Proof.
  unfold wf. intros Hwf.
  destruct (keys_define k v o) as [[Hin E]|[Hnin (l1 & l2 & E1 & E2)]].
  - now rewrite E.
  - rewrite E2. rewrite E1 in Hwf, Hnin.
    apply (proj2 (List.NoDup_Add (Add_app k l1 l2))). now split.
Qed.

Lemma length_define_le k v o : length (define k v o) <= S (length o).
Proof.
  rewrite <- !(length_map fst). fold (keys (define k v o)) (keys o).
  destruct (keys_define k v o) as [[_ E]|[_ (l1 & l2 & E1 & E2)]].
  - rewrite E. lia.
  - rewrite E2, E1, !length_app. simpl. lia.
Qed.

Lemma wf_empty : wf (@empty V).
Proof. constructor. Qed.

Lemma wf_fold_define {A} (f : A -> string) (g : JSObject.t V -> A -> V) l o :
  wf o -> wf (fold_left (fun acc a => define (f a) (g acc a) acc) l o).
Proof.
  revert o. induction l as [|a l IH]; simpl; intros o Hwf; [assumption|].
  apply IH. now apply wf_define.
Qed.

(** A copy made by spreading has no duplicate key, whatever the list it
    is made from, and reads like the original. *)
Lemma wf_spread o : wf (spread o).
Proof.
  unfold spread.
  apply (wf_fold_define fst (fun _ kv => snd kv)). apply wf_empty.
Qed.

Lemma In_keys_spread k o : In k (keys (spread o)) <-> In k (keys o).
Proof.
  unfold spread.
  assert (H : forall (l acc : JSObject.t V),
    In k (keys (fold_left (fun acc kv => define (fst kv) (snd kv) acc) l acc)) <->
    In k (keys l) \/ In k (keys acc)).
  { induction l as [|[k' v'] l IH]; simpl; intros acc.
    - split; [now right | intros [[]|H]; exact H].
    - rewrite IH, In_keys_define. simpl. split; intros H; intuition congruence. }
  rewrite H. simpl. split; [intros [H0|[]]; exact H0 | now left].
Qed.

(** For an object without a duplicate key the copy reads like the
    original. *)
Lemma get_spread k o : wf o -> get k (spread o) = get k o.
Proof.
  unfold spread, wf.
  assert (H : forall (l acc : JSObject.t V),
    List.NoDup (keys l) ->
    get k (fold_left (fun acc kv => define (fst kv) (snd kv) acc) l acc) =
    match get k l with Some v => Some v | None => get k acc end).
  { induction l as [|[k' v'] l IH]; simpl; intros acc Hnd; [reflexivity|].
    pose proof (proj1 (List.NoDup_cons_iff _ _) Hnd) as [Hk' Hnd'].
    rewrite (IH _ Hnd'), get_define.
    destruct (String.eqb_spec k k') as [->|Hne]; [|reflexivity].
    apply get_None_not_In in Hk'. now rewrite Hk'. }
  intros Hwf. rewrite (H o empty Hwf). now destruct (get k o).
Qed.

Lemma length_spread_le o : length (spread o) <= length o.
Proof.
  unfold spread.
  assert (H : forall (l acc : JSObject.t V),
             length (fold_left (fun acc kv => define (fst kv) (snd kv) acc) l acc)
             <= length l + length acc).
  { induction l as [|a l IH]; simpl; intros acc; [lia|].
    specialize (IH (define (fst a) (snd a) acc)).
    pose proof (length_define_le (fst a) (snd a) acc). lia. }
  specialize (H o empty). simpl in H. lia.
Qed.

(** *** Assignment: the key ["__proto__"] *)

Lemma set_as_define k v o :
  k <> "__proto__"%string \/ In k (keys o) -> set k v o = define k v o.
Proof.
  unfold set. intros [Hk|Hk].
  - apply String.eqb_neq in Hk. now rewrite Hk.
  - apply has_In in Hk. rewrite Hk. now rewrite andb_false_r.
Qed.

Lemma set_swallowed v o :
  no_own_proto o -> set "__proto__" v o = o.
Proof.
  unfold no_own_proto, set, has. intros ->. reflexivity.
Qed.

Lemma set_cases k v o : set k v o = o \/ set k v o = define k v o.
Proof.
  unfold set. destruct (String.eqb k "__proto__" && negb (has k o)); auto.
Qed.

Lemma no_own_proto_empty : no_own_proto (@empty V).
Proof. reflexivity. Qed.

Lemma no_own_proto_set k v o : no_own_proto o -> no_own_proto (set k v o).
Proof.
  intros Ho. destruct (String.eqb_spec k "__proto__") as [->|Hk].
  - now rewrite set_swallowed.
  - rewrite set_as_define by now left. unfold no_own_proto.
    rewrite get_define.
    destruct (String.eqb_spec "__proto__" k); [congruence | exact Ho].
Qed.

(** Reading [k'] after [o[k] = v], for an object without an own
    ["__proto__"]. *)
Lemma get_set k' k v o :
  no_own_proto o ->
  get k' (set k v o) =
  if String.eqb k "__proto__" then get k' o
  else if String.eqb k' k then Some v else get k' o.
Proof.
  intros Ho. destruct (String.eqb_spec k "__proto__") as [->|Hk].
  - now rewrite set_swallowed.
  - rewrite set_as_define by now left. apply get_define.
Qed.

(** Reading [k'] after [o[k] = v], for a key [k] that [o] owns. *)
Lemma get_set_own k' k v o :
  In k (keys o) ->
  get k' (set k v o) = if String.eqb k' k then Some v else get k' o.
Proof.
  intros Hk. rewrite set_as_define by now right. apply get_define.
Qed.

Lemma keys_set_own k v o : In k (keys o) -> keys (set k v o) = keys o.
Proof.
  intros Hk. rewrite set_as_define by now right.
  destruct (keys_define k v o) as [[_ E]|[Hnin _]]; [exact E | contradiction].
Qed.

Lemma wf_set k v o : wf o -> wf (set k v o).
Proof.
  intros Hwf. destruct (set_cases k v o) as [->| ->];
    [assumption | now apply wf_define].
Qed.

Lemma wf_fold_set {A} (f : A -> string) (g : JSObject.t V -> A -> V) l o :
  wf o -> wf (fold_left (fun acc a => set (f a) (g acc a) acc) l o).
Proof.
  revert o. induction l as [|a l IH]; simpl; intros o Hwf; [assumption|].
  apply IH. now apply wf_set.
Qed.

Lemma no_own_proto_fold_set {A} (f : A -> string) (g : JSObject.t V -> A -> V) l o :
  no_own_proto o ->
  no_own_proto (fold_left (fun acc a => set (f a) (g acc a) acc) l o).
Proof.
  revert o. induction l as [|a l IH]; simpl; intros o Ho; [assumption|].
  apply IH. now apply no_own_proto_set.
Qed.

End Facts.
End JSObjectFacts.

(** ** Numbers: what the proofs need of binary64 arithmetic *)

Module JSNumFacts.

Local Open Scope float_scope.

Lemma Prim2SF_nan : Prim2SF nan = S754_nan.
Proof. reflexivity. Qed.

Lemma nan_add x : nan + x = nan.
Proof.
  apply Prim2SF_inj. rewrite FloatAxioms.add_spec, Prim2SF_nan. reflexivity.
Qed.

Lemma nan_sub x : nan - x = nan.
Proof.
  apply Prim2SF_inj. rewrite FloatAxioms.sub_spec, Prim2SF_nan. reflexivity.
Qed.

Lemma round2_nan : round2 nan = nan.
Proof. reflexivity. Qed.

Lemma is_nan_spec x : is_nan x = true <-> Prim2SF x = S754_nan.
Proof.
  unfold is_nan. rewrite FloatAxioms.eqb_spec. unfold SFeqb.
  destruct (Prim2SF x) as [s|s| |s m e]; simpl.
  - split; discriminate.
  - destruct s; split; discriminate.
  - split; reflexivity.
  - destruct s; rewrite Z.compare_refl, Pos.compare_cont_refl; simpl;
      split; discriminate.
Qed.

Lemma is_nan_false x : is_nan x = false <-> Prim2SF x <> S754_nan.
Proof.
  rewrite <- is_nan_spec. destruct (is_nan x); split; congruence.
Qed.

End JSNumFacts.

(** ** [calculateBalances], one property at a time *)

Module BalanceFacts.
Import JSObject JSObjectFacts JSNumFacts.

Implicit Types (b o : JSObject.t number) (k : string).

Lemma get_number_own k o : get_number k o = own_value (get k o).
Proof. reflexivity. Qed.

Lemma get_add_assign k k' x o :
  no_own_proto o -> k <> "__proto__"%string ->
  get k (add_assign k' x o) =
  if String.eqb k k' then Some (own_value (get k o) + x)%float else get k o.
Proof.
  intros Ho Hk. unfold add_assign. rewrite get_set by assumption.
  rewrite get_number_own.
  destruct (String.eqb_spec k' "__proto__") as [->|Hk'].
  - destruct (String.eqb_spec k "__proto__"); [congruence | reflexivity].
  - now destruct (String.eqb_spec k k') as [->|].
Qed.

Lemma get_sub_assign k k' x o :
  no_own_proto o -> k <> "__proto__"%string ->
  get k (sub_assign k' x o) =
  if String.eqb k k' then Some (own_value (get k o) - x)%float else get k o.
Proof.
  intros Ho Hk. unfold sub_assign. rewrite get_set by assumption.
  rewrite get_number_own.
  destruct (String.eqb_spec k' "__proto__") as [->|Hk'].
  - destruct (String.eqb_spec k "__proto__"); [congruence | reflexivity].
  - now destruct (String.eqb_spec k k') as [->|].
Qed.

Lemma no_own_proto_process_expense b expense :
  no_own_proto b -> no_own_proto (process_expense b expense).
Proof.
  intros Hb. unfold process_expense, sub_assign.
  apply (no_own_proto_fold_set (fun p => p)
           (fun o p => (get_number p o -
              amount expense / of_length (participants expense))%float)).
  now apply no_own_proto_set.
Qed.

Lemma no_own_proto_fold_process es b :
  no_own_proto b -> no_own_proto (fold_left process_expense es b).
Proof.
  revert b. induction es as [|e es IH]; simpl; intros b Hb; [assumption|].
  apply IH. now apply no_own_proto_process_expense.
Qed.

Lemma no_own_proto_init_balances ps : no_own_proto (init_balances ps).
Proof.
  unfold init_balances.
  apply (no_own_proto_fold_set person_id (fun _ _ => 0%float)).
  apply no_own_proto_empty.
Qed.

Lemma no_own_proto_round_balances b :
  no_own_proto b -> no_own_proto (round_balances b).
Proof.
  intros Hb. unfold round_balances.
  now apply (no_own_proto_fold_set (fun p => p)
               (fun o p => round2 (get_number p o))).
Qed.

Lemma get_process_expense k b expense :
  no_own_proto b -> k <> "__proto__"%string ->
  get k (process_expense b expense) = own_step k (get k b) expense.
Proof.
  intros Hb Hk. unfold process_expense, own_step.
  generalize (amount expense / of_length (participants expense))%float.
  intros split. rewrite <- get_add_assign by assumption.
  assert (Ho : no_own_proto (add_assign (paidBy expense) (amount expense) b))
    by (now apply no_own_proto_set).
  revert Ho.
  generalize (add_assign (paidBy expense) (amount expense) b).
  induction (participants expense) as [|p l IH]; simpl; intros o Ho.
  - reflexivity.
  - rewrite IH by (now apply no_own_proto_set).
    now rewrite get_sub_assign.
Qed.

Lemma get_fold_process k es b :
  no_own_proto b -> k <> "__proto__"%string ->
  get k (fold_left process_expense es b) = fold_left (own_step k) es (get k b).
Proof.
  intros Hb Hk. revert b Hb.
  induction es as [|e es IH]; simpl; intros b Hb; [reflexivity|].
  rewrite IH by (now apply no_own_proto_process_expense).
  now rewrite get_process_expense.
Qed.

Lemma get_init_balances k ps :
  k <> "__proto__"%string ->
  get k (init_balances ps) = if is_person k ps then Some 0%float else None.
Proof.
  intros Hk. unfold init_balances.
  assert (H : forall o,
    no_own_proto o ->
    get k (fold_left (fun balances person =>
                        set (person_id person) 0%float balances) ps o) =
    if is_person k ps then Some 0%float else get k o).
  { induction ps as [|p ps IH]; simpl; intros o Ho; [reflexivity|].
    rewrite IH by (now apply no_own_proto_set). rewrite get_set by assumption.
    destruct (String.eqb_spec (person_id p) "__proto__") as [E|E].
    - rewrite E.
      destruct (String.eqb_spec k "__proto__"); [congruence|]. reflexivity.
    - destruct (String.eqb k (person_id p)); simpl;
        now destruct (is_person k ps). }
  now apply H.
Qed.

Lemma wf_init_balances ps : wf (init_balances ps).
Proof.
  unfold init_balances.
  apply (wf_fold_set person_id (fun _ _ => 0%float)). apply wf_empty.
Qed.

Lemma wf_process_expense b expense : wf b -> wf (process_expense b expense).
Proof.
  intros Hwf. unfold process_expense, sub_assign.
  apply (wf_fold_set (fun p => p)
           (fun o p => (get_number p o -
              amount expense / of_length (participants expense))%float)).
  now apply wf_set.
Qed.

Lemma wf_fold_process es b : wf b -> wf (fold_left process_expense es b).
Proof.
  revert b. induction es as [|e es IH]; simpl; intros b Hwf; [assumption|].
  apply IH. now apply wf_process_expense.
Qed.

Lemma wf_round_balances b : wf b -> wf (round_balances b).
Proof.
  intros Hwf. unfold round_balances.
  now apply (wf_fold_set (fun p => p) (fun o p => round2 (get_number p o))).
Qed.

(** Rounding a list of distinct keys rounds each of them once. *)
Lemma get_round_keys k ks b :
  no_own_proto b -> k <> "__proto__"%string ->
  List.NoDup ks ->
  get k (fold_left (fun balances personId =>
                      set personId (round2 (get_number personId balances)) balances)
                   ks b) =
  if existsb (String.eqb k) ks then Some (round2 (get_number k b)) else get k b.
Proof.
  intros Hb Hk Hnd. revert b Hb.
  induction Hnd as [|a ks Ha Hnd IH]; simpl; intros b Hb.
  - reflexivity.
  - rewrite IH by (now apply no_own_proto_set).
    unfold get_number at 1. rewrite !get_set by assumption.
    destruct (String.eqb_spec a "__proto__") as [->|Hne'].
    + destruct (String.eqb_spec k "__proto__"); [congruence|]. reflexivity.
    + destruct (String.eqb_spec k a) as [->|Hne]; simpl.
      * destruct (existsb (String.eqb a) ks) eqn:Hex; [|reflexivity].
        apply existsb_exists in Hex. destruct Hex as (x & Hx & Heq).
        apply String.eqb_eq in Heq. subst x. contradiction.
      * reflexivity.
Qed.

Lemma get_round_balances k b :
  wf b -> no_own_proto b -> k <> "__proto__"%string ->
  get k (round_balances b) = option_map round2 (get k b).
Proof.
  intros Hwf Hb Hk. unfold round_balances.
  rewrite get_round_keys by assumption.
  unfold get_number.
  destruct (existsb (String.eqb k) (keys b)) eqn:Hex.
  - apply existsb_exists in Hex. destruct Hex as (x & Hx & Heq).
    apply String.eqb_eq in Heq. subst x.
    destruct (In_keys_get _ _ Hx) as [v ->]. reflexivity.
  - destruct (get k b) as [v|] eqn:Hget; [|reflexivity].
    apply get_In_keys in Hget.
    assert (existsb (String.eqb k) (keys b) = true); [|congruence].
    apply existsb_exists. exists k. split; [assumption | apply String.eqb_refl].
Qed.

(** The balance of [k] that [calculateBalances] returns for a trip with at
    least one person. *)
Lemma get_calculateBalances k trip :
  persons trip <> [] -> k <> "__proto__"%string ->
  get k (calculateBalances (Some trip)) =
  option_map round2
    (fold_left (own_step k) (expenses trip)
               (if is_person k (persons trip) then Some 0%float else None)).
Proof.
  intros Hps Hk. unfold calculateBalances.
  destruct (persons trip) as [|p ps] eqn:E; [congruence|].
  rewrite get_round_balances;
    [|apply wf_fold_process, wf_init_balances
     |apply no_own_proto_fold_process, no_own_proto_init_balances
     |assumption].
  rewrite get_fold_process;
    [|apply no_own_proto_init_balances|assumption].
  now rewrite get_init_balances.
Qed.

(** No assignment creates a property ["__proto__"]: the object returned has
    none. *)
Lemma no_own_proto_calculateBalances trip :
  no_own_proto (calculateBalances trip).
Proof.
  unfold calculateBalances. destruct trip as [trip|]; [|reflexivity].
  destruct (persons trip); [reflexivity|].
  apply no_own_proto_round_balances, no_own_proto_fold_process,
    no_own_proto_init_balances.
Qed.

Lemma wf_calculateBalances trip : wf (calculateBalances trip).
Proof.
  unfold calculateBalances. destruct trip as [trip|]; [|apply wf_empty].
  destruct (persons trip); [apply wf_empty|].
  apply wf_round_balances, wf_fold_process, wf_init_balances.
Qed.

(** *** A property created by an expense holds [NaN] for good *)

Lemma fold_debit_nan k split l :
  fold_left (fun bal participantId =>
               if String.eqb k participantId
               then Some (own_value bal - split)%float else bal)
            l (Some nan) = Some nan.
Proof.
  induction l as [|p l IH]; simpl; [reflexivity|].
  destruct (String.eqb k p); simpl; [rewrite nan_sub|]; exact IH.
Qed.

Lemma fold_debit_None k split l :
  fold_left (fun bal participantId =>
               if String.eqb k participantId
               then Some (own_value bal - split)%float else bal)
            l None = if existsb (String.eqb k) l then Some nan else None.
Proof.
  induction l as [|p l IH]; simpl; [reflexivity|].
  destruct (String.eqb k p); simpl; [|exact IH].
  rewrite nan_sub. apply fold_debit_nan.
Qed.

Lemma own_step_nan k expense : own_step k (Some nan) expense = Some nan.
Proof.
  unfold own_step. destruct (String.eqb k (paidBy expense)); simpl;
    [rewrite nan_add|]; apply fold_debit_nan.
Qed.

Lemma own_step_None_mentioned k expense :
  mentions expense k -> own_step k None expense = Some nan.
Proof.
  unfold own_step, mentions. intros Hm.
  destruct (String.eqb_spec k (paidBy expense)) as [->|Hne]; simpl.
  - rewrite nan_add. apply fold_debit_nan.
  - rewrite fold_debit_None.
    destruct Hm as [Hm|Hm]; [congruence|].
    assert (existsb (String.eqb k) (participants expense) = true) as ->;
      [|reflexivity].
    apply existsb_exists. exists k. split; [assumption | apply String.eqb_refl].
Qed.

Lemma own_step_None_cases k expense :
  own_step k None expense = None \/ own_step k None expense = Some nan.
Proof.
  unfold own_step. destruct (String.eqb k (paidBy expense)); simpl.
  - right. rewrite nan_add. apply fold_debit_nan.
  - rewrite fold_debit_None.
    destruct (existsb (String.eqb k) (participants expense)); auto.
Qed.

Lemma fold_own_step_nan k es :
  fold_left (own_step k) es (Some nan) = Some nan.
Proof.
  induction es as [|e es IH]; simpl; [reflexivity|].
  now rewrite own_step_nan.
Qed.

Lemma fold_own_step_None_mentioned k es :
  (exists expense, In expense es /\ mentions expense k) ->
  fold_left (own_step k) es None = Some nan.
Proof.
  induction es as [|e es IH]; simpl; intros (x & Hin & Hm); [contradiction|].
  destruct (own_step_None_cases k e) as [E|E].
  - rewrite E. apply IH. destruct Hin as [->|Hin].
    + rewrite (own_step_None_mentioned _ _ Hm) in E. discriminate.
    + now exists x.
  - rewrite E. apply fold_own_step_nan.
Qed.

(** *** A person of the trip, when every id is valid *)

Lemma own_step_Some k v expense :
  own_step k (Some v) expense = Some (spec_expense_effect k v expense).
Proof.
  unfold own_step, spec_expense_effect.
  generalize (amount expense / of_length (participants expense))%float.
  intros split.
  assert (H : forall l w,
    fold_left (fun bal participantId =>
                 if String.eqb k participantId
                 then Some (own_value bal - split)%float else bal) l (Some w) =
    Some (fold_left (fun bal participantId =>
                       if String.eqb k participantId
                       then (bal - split)%float else bal) l w)).
  { induction l as [|p l IH]; simpl; intros w; [reflexivity|].
    destruct (String.eqb k p); simpl; apply IH. }
  destruct (String.eqb k (paidBy expense)); simpl; apply H.
Qed.

Lemma fold_own_step_Some k es v :
  fold_left (own_step k) es (Some v) =
  Some (fold_left (spec_expense_effect k) es v).
Proof.
  revert v. induction es as [|e es IH]; simpl; intros v; [reflexivity|].
  now rewrite own_step_Some, IH.
Qed.

Lemma own_step_None_unmentioned k expense :
  ~ mentions expense k -> own_step k None expense = None.
Proof.
  unfold own_step, mentions. intros Hm.
  destruct (String.eqb_spec k (paidBy expense)) as [->|Hne]; [tauto|].
  rewrite fold_debit_None.
  destruct (existsb (String.eqb k) (participants expense)) eqn:Hex;
    [|reflexivity].
  apply existsb_exists in Hex. destruct Hex as (x & Hx & Heq).
  apply String.eqb_eq in Heq. subst x. tauto.
Qed.

Lemma fold_own_step_None_unmentioned k es :
  (forall expense, In expense es -> ~ mentions expense k) ->
  fold_left (own_step k) es None = None.
Proof.
  induction es as [|e es IH]; simpl; intros H; [reflexivity|].
  rewrite own_step_None_unmentioned by (apply H; now left).
  apply IH. intros x Hx. apply H. now right.
Qed.

Lemma is_person_In k ps :
  is_person k ps = true <-> In k (map person_id ps).
Proof.
  unfold is_person. rewrite existsb_exists, in_map_iff. split.
  - intros (p & Hp & Heq). apply String.eqb_eq in Heq. now exists p.
  - intros (p & Heq & Hp). exists p. split; [assumption|].
    now apply String.eqb_eq.
Qed.

(** An expense without participants leaves every property but the
    payer's as it was. *)
Lemma own_step_no_participants k bal expense :
  participants expense = [] -> k <> paidBy expense ->
  own_step k bal expense = bal.
Proof.
  unfold own_step. intros -> Hne. simpl.
  now destruct (String.eqb_spec k (paidBy expense)).
Qed.

End BalanceFacts.

(** ** The balance calculator: claims C1, C3, C5 and C6 *)

(** C1.  The sum of the balances is not always within 0.01 of 0: for seven
    persons sharing one expense of 100, the payer's balance rounds to 85.71
    and each of the six others to -14.29, and the sum that the self-test
    compares with 0.01 is about -0.03. *)
Theorem seven_way_split_sum_off :
  (Math_abs (sum_balances (calculateBalances (Some Scenarios.seven)))
   <=? epsilon)%float = false.
Proof. vm_compute. reflexivity. Qed.

(** C3 as stated fails: an expense without participants is not skipped.
    The balances of the trip differ from those of the trip without it. *)
Lemma empty_participants_not_skipped :
  calculateBalances (Some Scenarios.no_participants) <>
  calculateBalances (Some (with_expenses Scenarios.no_participants [])).
Proof.
  intros H.
  assert (E : get_number "A" (calculateBalances (Some Scenarios.no_participants))
            = get_number "A" (calculateBalances
                (Some (with_expenses Scenarios.no_participants []))))
    by now rewrite H.
  float_neq E.
Qed.

(** C3, amended.  [calculateBalances] is total.  For a trip without
    persons it returns [{}], with the expense or without.  For a trip with
    at least one person an expense without participants is not skipped: it
    debits nobody and is processed as the one statement
    [balances[paidBy] += amount] (the quotient [amount / 0] is not used).
    The returned balance of every id other than [paidBy] is the one
    computed from the remaining expenses alone; the whole result is the one
    obtained with that statement in the expense's place; and the entry of
    [paidBy] (if it is not ["__proto__"], which gets no entry) is the
    rounded result of adding the amount to what the earlier expenses left
    under [paidBy] and processing the later ones. *)
Theorem empty_participants_credit_only trip es1 expense es2 :
  participants expense = [] ->
  expenses trip = es1 ++ expense :: es2 ->
  (persons trip = [] -> calculateBalances (Some trip) = JSObject.empty) /\
  (forall balances,
     process_expense balances expense =
     add_assign (paidBy expense) (amount expense) balances) /\
  (forall k, k <> paidBy expense ->
     JSObject.get k (calculateBalances (Some trip)) =
     JSObject.get k (calculateBalances (Some (with_expenses trip (es1 ++ es2))))) /\
  (persons trip <> [] ->
   calculateBalances (Some trip) =
   round_balances
     (fold_left process_expense es2
        (add_assign (paidBy expense) (amount expense)
           (fold_left process_expense es1 (init_balances (persons trip)))))) /\
  (persons trip <> [] -> paidBy expense <> "__proto__"%string ->
   JSObject.get (paidBy expense) (calculateBalances (Some trip)) =
   option_map round2
     (fold_left (own_step (paidBy expense)) es2
        (Some (own_value
                 (fold_left (own_step (paidBy expense)) es1
                    (if is_person (paidBy expense) (persons trip)
                     then Some 0%float else None))
               + amount expense)%float))).
Proof.
  intros Hnone Hes.
  assert (Hstep : forall balances,
             process_expense balances expense =
             add_assign (paidBy expense) (amount expense) balances).
  { intros balances. unfold process_expense. now rewrite Hnone. }
  split; [|split; [exact Hstep|split; [|split]]].
  - intros Hps. unfold calculateBalances. now rewrite Hps.
  - intros k Hk. destruct (persons trip) as [|p ps] eqn:Hps.
    + unfold calculateBalances. simpl. now rewrite Hps.
    + destruct (String.eqb_spec k "__proto__") as [->|Hproto].
      * now rewrite !BalanceFacts.no_own_proto_calculateBalances.
      * rewrite !BalanceFacts.get_calculateBalances
          by (assumption || (simpl; rewrite Hps; discriminate)).
        simpl. rewrite Hes, !fold_left_app. simpl.
        now rewrite (BalanceFacts.own_step_no_participants k _ expense Hnone Hk).
  - intros Hps. unfold calculateBalances.
    destruct (persons trip) as [|p ps]; [congruence|].
    rewrite Hes, fold_left_app. simpl. now rewrite Hstep.
  - intros Hps Hproto.
    rewrite BalanceFacts.get_calculateBalances by assumption.
    rewrite Hes, fold_left_app. simpl.
    unfold own_step at 2. rewrite Hnone, String.eqb_refl. reflexivity.
Qed.

Lemma empty_participants_credit_only_witness :
  JSObject.get "B" (calculateBalances (Some Scenarios.no_participants)) =
  JSObject.get "B" (calculateBalances
                      (Some (with_expenses Scenarios.no_participants ([] ++ [])))).
Proof.
  refine (proj1 (proj2 (proj2 (empty_participants_credit_only
            Scenarios.no_participants []
            (Scenarios.expense 10%float "A" []) [] _ _))) "B" _).
  - reflexivity.
  - reflexivity.
  - discriminate.
Defined.

(** C5 as stated fails: [Math.round] sends a tie towards +infinity, which is
    neither of the two roundings the claim names.  B owes 0.375; the code
    returns -0.37 where rounding half away from zero and rounding half to
    even both give -0.38. *)
Lemma tie_rounds_up_not_away_nor_even :
  JSObject.get "B" (calculateBalances (Some Scenarios.three_quarters)) <>
    spec_calculateBalances round2_half_away Scenarios.three_quarters "B" /\
  JSObject.get "B" (calculateBalances (Some Scenarios.three_quarters)) <>
    spec_calculateBalances round2_half_even Scenarios.three_quarters "B".
Proof.
  split; intros H; apply (f_equal own_value) in H; float_neq H.
Qed.

(** C5, amended.  For every trip whose expenses have non-empty participants
    and mention only persons of the trip, [calculateBalances] returns the
    mapping of the specification with [Math.round(x * 100) / 100] as the
    rounding (a tie goes towards +infinity): the same keys, and for each
    person the same number.  One key is apart: a person whose id is
    ["__proto__"] gets no entry, because [balances["__proto__"] = 0]
    creates no property. *)
Theorem calculateBalances_refines_spec trip :
  (forall expense, In expense (expenses trip) -> participants expense <> []) ->
  ids_valid trip ->
  forall k,
    JSObject.get k (calculateBalances (Some trip)) =
    if String.eqb k "__proto__" then None
    else spec_calculateBalances round2 trip k.
Proof.
  intros _ Hvalid k.
  destruct (String.eqb_spec k "__proto__") as [->|Hproto].
  { apply BalanceFacts.no_own_proto_calculateBalances. }
  unfold spec_calculateBalances.
  destruct (persons trip) as [|p ps] eqn:Hps.
  - unfold calculateBalances. rewrite Hps. reflexivity.
  - rewrite BalanceFacts.get_calculateBalances
      by (assumption || (rewrite Hps; discriminate)).
    rewrite Hps. destruct (is_person k (p :: ps)) eqn:Hk.
    + now rewrite BalanceFacts.fold_own_step_Some.
    + rewrite BalanceFacts.fold_own_step_None_unmentioned; [reflexivity|].
      intros expense Hin [Hm|Hm].
      * destruct (Hvalid expense Hin) as [Hp _]. rewrite Hps in Hp. congruence.
      * destruct (Hvalid expense Hin) as [_ Hq]. specialize (Hq k Hm).
        rewrite Hps in Hq. congruence.
Qed.

Lemma calculateBalances_refines_spec_witness :
  JSObject.get "person_c" (calculateBalances (Some Scenarios.goa)) =
  spec_calculateBalances round2 Scenarios.goa "person_c".
Proof.
  apply (calculateBalances_refines_spec Scenarios.goa).
  - intros expense H. simpl in H. in_cases H; discriminate.
  - intros expense H. simpl in H. in_cases H; (split; [reflexivity|]);
      intros q Hq; simpl in Hq; in_cases Hq; reflexivity.
Defined.

(** C6 as stated fails: the entry under a dangling id does not hold the
    credited amount.  [balances["ghost"]] is [undefined] when the expense of
    10 is credited, and [undefined + 10] is [NaN]. *)
Lemma dangling_entry_is_not_the_amount :
  JSObject.get "ghost" (calculateBalances (Some Scenarios.dangling)) <>
  Some 10%float.
Proof.
  intros H. apply (f_equal own_value) in H. float_neq H.
Qed.

(** C6, amended.  For every trip with at least one person, an id that is no
    person of the trip and that some expense mentions, as payer or as
    participant, gets a balance entry all the same and nothing fails; the
    entry holds [NaN], not an amount.  The id ["__proto__"] is apart: no
    entry is created under it. *)
Theorem dangling_id_holds_NaN trip k :
  persons trip <> [] ->
  is_person k (persons trip) = false ->
  (exists expense, In expense (expenses trip) /\ mentions expense k) ->
  JSObject.get k (calculateBalances (Some trip)) =
  if String.eqb k "__proto__" then None else Some nan.
Proof.
  intros Hps Hk Hm.
  destruct (String.eqb_spec k "__proto__") as [->|Hproto].
  { apply BalanceFacts.no_own_proto_calculateBalances. }
  rewrite BalanceFacts.get_calculateBalances by assumption.
  rewrite Hk, BalanceFacts.fold_own_step_None_mentioned by assumption.
  reflexivity.
Qed.

Lemma dangling_id_holds_NaN_witness :
  JSObject.get "ghost" (calculateBalances (Some Scenarios.dangling)) = Some nan.
Proof.
  apply (dangling_id_holds_NaN Scenarios.dangling "ghost").
  - discriminate.
  - reflexivity.
  - exists (Scenarios.expense 10%float "ghost" ["A"]). split.
    + left. reflexivity.
    + left. reflexivity.
Defined.

(** ** Numbers: order, subtraction and rounding on binary64 *)

Module FloatOrder.
Import Binary64.

Local Open Scope float_scope.

Lemma Prim2SF_eps : Prim2SF 0.01 = S754_finite false eps_m eps_e.
Proof. reflexivity. Qed.

Lemma Prim2SF_neg_eps : Prim2SF (-0.01) = S754_finite true eps_m eps_e.
Proof. reflexivity. Qed.

Lemma Prim2SF_zero : Prim2SF 0 = S754_zero false.
Proof. reflexivity. Qed.

Lemma at_least_eps_shape X :
  at_least_eps X ->
  X = S754_infinity false \/ exists m e, X = S754_finite false m e.
Proof.
  unfold at_least_eps, SFleb.
  destruct X as [s|[|]| |[|] m e]; simpl; try discriminate; eauto.
Qed.

Lemma SFcompare_antisym X Y :
  SFcompare Y X = option_map CompOpp (SFcompare X Y).
Proof.
  destruct X as [s1|s1| |s1 m1 e1], Y as [s2|s2| |s2 m2 e2]; simpl;
    try reflexivity;
    try (destruct s1; reflexivity); try (destruct s2; reflexivity);
    try (destruct s1, s2; reflexivity).
  destruct s1, s2; simpl; try reflexivity;
    rewrite (Z.compare_antisym e1 e2); destruct (e1 ?= e2)%Z; simpl;
    try reflexivity; rewrite (ZC4 m2 m1);
    destruct (Pos.compare_cont Eq m1 m2); reflexivity.
Qed.

Lemma SFltb_SFleb X Y : SFltb X Y = true -> SFleb X Y = true.
Proof.
  unfold SFltb, SFleb. destruct (SFcompare X Y) as [[| |]|]; auto.
Qed.

(** Among numbers that are not [NaN], what is not below is at least. *)
Lemma SFltb_false_SFleb X Y :
  X <> S754_nan -> Y <> S754_nan -> SFltb X Y = false -> SFleb Y X = true.
Proof.
  unfold SFltb, SFleb. rewrite (SFcompare_antisym X Y).
  destruct (SFcompare X Y) as [[| |]|] eqn:E; simpl; auto; try discriminate.
  intros HX HY _. destruct X, Y; simpl in E; congruence.
Qed.

Lemma SFcompare_Eq_finite s m e Y :
  SFcompare (S754_finite s m e) Y = Some Eq -> Y = S754_finite s m e.
Proof.
  destruct Y as [s2|s2| |s2 m2 e2]; simpl; try discriminate.
  - destruct s; discriminate.
  - destruct s2; discriminate.
  - destruct s, s2; try discriminate;
      destruct (e ?= e2)%Z eqn:Ee; try discriminate;
      apply Z.compare_eq in Ee; subst e2; intros H;
      injection H as H.
    + apply (f_equal CompOpp) in H. rewrite CompOpp_involutive in H. simpl in H.
      apply Pcompare_Eq_eq in H. now subst.
    + apply Pcompare_Eq_eq in H. now subst.
Qed.


(** *** Rounding a non-zero value above the underflow range *)

Lemma digits2_bounds p :
  (2 ^ (Z.pos (digits2_pos p) - 1) <= Z.pos p < 2 ^ Z.pos (digits2_pos p))%Z.
Proof.
  induction p as [p IH|p IH|]; simpl digits2_pos.
  - rewrite Pos2Z.inj_succ. change (Z.pos p~1) with (2 * Z.pos p + 1)%Z.
    replace (Z.succ (Z.pos (digits2_pos p)) - 1)%Z
      with (Z.succ (Z.pos (digits2_pos p) - 1))%Z by lia.
    rewrite !Z.pow_succ_r by lia. lia.
  - rewrite Pos2Z.inj_succ. change (Z.pos p~0) with (2 * Z.pos p)%Z.
    replace (Z.succ (Z.pos (digits2_pos p)) - 1)%Z
      with (Z.succ (Z.pos (digits2_pos p) - 1))%Z by lia.
    rewrite !Z.pow_succ_r by lia. lia.
  - simpl. lia.
Qed.

Lemma shr_1_m mrs :
  (0 <= shr_m mrs)%Z -> shr_m (shr_1 mrs) = (shr_m mrs / 2)%Z.
Proof.
  destruct mrs as [m r s]. simpl. intros Hm.
  destruct m as [|[p|p|]|p]; simpl; try reflexivity; try lia.
  - rewrite <- Z.div2_div. reflexivity.
  - rewrite <- Z.div2_div. reflexivity.
Qed.

Lemma shr_m_iter p : forall mrs,
  (0 <= shr_m mrs)%Z ->
  shr_m (SpecFloat.iter_pos shr_1 p mrs) = (shr_m mrs / 2 ^ Z.pos p)%Z.
Proof.
  induction p as [p IH|p IH|]; intros mrs Hm; simpl SpecFloat.iter_pos.
  - assert (H1 : (0 <= shr_m (shr_1 mrs))%Z).
    { rewrite shr_1_m by assumption. apply Z.div_pos; lia. }
    assert (H2 : (0 <= shr_m (SpecFloat.iter_pos shr_1 p (shr_1 mrs)))%Z).
    { rewrite IH by assumption. apply Z.div_pos; [assumption|]. lia. }
    rewrite IH by assumption. rewrite IH by assumption.
    rewrite shr_1_m by assumption.
    rewrite !Z.div_div by lia. f_equal.
    change (Z.pos p~1) with (2 * Z.pos p + 1)%Z.
    replace (2 * Z.pos p + 1)%Z with (1 + Z.pos p + Z.pos p)%Z by lia.
    rewrite !Z.pow_add_r by lia. rewrite Z.pow_1_r. lia.
  - assert (H2 : (0 <= shr_m (SpecFloat.iter_pos shr_1 p mrs))%Z).
    { rewrite IH by assumption. apply Z.div_pos; [assumption|]. lia. }
    rewrite IH by assumption. rewrite IH by assumption.
    rewrite !Z.div_div by lia. f_equal.
    change (Z.pos p~0) with (2 * Z.pos p)%Z.
    replace (2 * Z.pos p)%Z with (Z.pos p + Z.pos p)%Z by lia.
    rewrite !Z.pow_add_r by lia. reflexivity.
  - rewrite shr_1_m by assumption. reflexivity.
Qed.

Lemma shr_record_of_loc_m m l : shr_m (shr_record_of_loc m l) = m.
Proof. destruct l as [|[| |]]; reflexivity. Qed.

(** Shifting to the canonical exponent keeps a positive mantissa positive
    when the exponent is at least [emin]: at most the digits beyond the
    first 53 are dropped. *)
Lemma shr_fexp_pos m e l :
  (emin <= e)%Z ->
  (0 < shr_m (fst (shr_fexp prec emax (Z.pos m) e l)))%Z /\
  (emin <= snd (shr_fexp prec emax (Z.pos m) e l))%Z.
Proof.
  intros He. unfold shr_fexp, shr. simpl Zdigits2.
  pose proof (digits2_bounds m) as [Hlo _].
  destruct (fexp prec emax (Z.pos (digits2_pos m) + e) - e)%Z as [|n|n] eqn:En;
    simpl fst; simpl snd; rewrite ?shr_record_of_loc_m; try lia.
  rewrite shr_m_iter by (rewrite shr_record_of_loc_m; lia).
  rewrite shr_record_of_loc_m.
  unfold fexp in En.
  assert (Hn : (Z.pos n = Z.pos (digits2_pos m) - prec)%Z) by lia.
  split; [|lia].
  apply Z.div_str_pos. split; [lia|].
  apply Z.le_trans with (2 ^ (Z.pos (digits2_pos m) - 1))%Z; [|assumption].
  apply Z.pow_le_mono_r; [lia|]. rewrite Hn. unfold prec. lia.
Qed.

Lemma round_nearest_even_ge m l : (m <= round_nearest_even m l)%Z.
Proof.
  destruct l as [|[| |]]; simpl; try lia. destruct (Z.even m); lia.
Qed.

(** A positive mantissa at an exponent [>= emin] rounds to a finite number
    of the given sign or overflows to the infinity of that sign: it never
    becomes zero or [NaN]. *)
Lemma binary_round_aux_shape s m e l :
  (emin <= e)%Z ->
  (exists m' e', binary_round_aux prec emax s (Z.pos m) e l = S754_finite s m' e') \/
  binary_round_aux prec emax s (Z.pos m) e l = S754_infinity s.
Proof.
  intros He. unfold binary_round_aux.
  destruct (shr_fexp_pos m e l He) as [H1 H2].
  destruct (shr_fexp prec emax (Z.pos m) e l) as [mrs' e'].
  simpl in H1, H2.
  pose proof (round_nearest_even_ge (shr_m mrs') (loc_of_shr_record mrs')) as Hge.
  destruct (round_nearest_even (shr_m mrs') (loc_of_shr_record mrs'))
    as [|m1|m1]; try lia.
  destruct (shr_fexp_pos m1 e' loc_Exact H2) as [H3 _].
  destruct (shr_fexp prec emax (Z.pos m1) e' loc_Exact) as [mrs'' e''].
  simpl in H3. destruct (shr_m mrs'') as [|m2|m2]; try lia.
  destruct (e'' <=? emax - prec)%Z; eauto.
Qed.

Lemma binary_round_shape s m e :
  (emin <= e)%Z ->
  (exists m' e', binary_round prec emax s m e = S754_finite s m' e') \/
  binary_round prec emax s m e = S754_infinity s.
Proof.
  intros He. unfold binary_round, shl_align.
  destruct (fexp prec emax (Z.pos (digits2_pos m) + e) - e)%Z eqn:En;
    apply binary_round_aux_shape; try assumption.
  unfold fexp. lia.
Qed.


(** *** The sign of a difference *)

Lemma bounded_facts m e :
  bounded prec emax m e = true ->
  (emin <= e)%Z /\ (Z.pos (digits2_pos m) <= prec)%Z /\
  ((emin < e)%Z -> Z.pos (digits2_pos m) = prec).
Proof.
  unfold bounded, canonical_mantissa, fexp. intros H.
  apply andb_true_iff in H. destruct H as [H _]. apply Z.eqb_eq in H. lia.
Qed.

Lemma shl_align_val m e ez :
  (ez <= e)%Z -> Z.pos (fst (shl_align m e ez)) = (Z.pos m * 2 ^ (e - ez))%Z.
Proof.
  intros Hle. unfold shl_align.
  destruct (ez - e)%Z as [|d|d] eqn:Ed; simpl fst; try lia.
  - replace (e - ez)%Z with 0%Z by lia. lia.
  - change (Pos.iter xO m d) with (shift_pos d m).
    rewrite shift_pos_correct. replace (e - ez)%Z with (Z.pos d) by lia.
    change (Z.pow_pos 2 d) with (2 ^ Z.pos d)%Z. lia.
Qed.

(** For canonical positive numbers, the order on (exponent, mantissa) is
    the order on values. *)
Lemma compare_Lt_aligned mx ex my ey ez :
  bounded prec emax mx ex = true -> bounded prec emax my ey = true ->
  SFcompare (S754_finite false mx ex) (S754_finite false my ey) = Some Lt ->
  (ez <= ex)%Z -> (ez <= ey)%Z ->
  (Z.pos mx * 2 ^ (ex - ez) < Z.pos my * 2 ^ (ey - ez))%Z.
Proof.
  intros Bx By Hc Hx Hy. simpl in Hc.
  destruct (bounded_facts _ _ Bx) as (Hex & Hdx & _).
  destruct (bounded_facts _ _ By) as (Hey & _ & Hdy).
  assert (Hp : (0 < 2 ^ (ex - ez))%Z) by (apply Z.pow_pos_nonneg; lia).
  destruct (ex ?= ey)%Z eqn:Ecmp.
  - apply Z.compare_eq in Ecmp. subst ey.
    injection Hc as Hc. change (Pos.compare_cont Eq mx my) with (mx ?= my)%positive in Hc.
    apply Z.mul_lt_mono_pos_r; [assumption | exact Hc].
  - assert (Hlt : (ex < ey)%Z) by exact Ecmp.
    pose proof (digits2_bounds mx) as [_ Hmx].
    pose proof (digits2_bounds my) as [Hmy _].
    rewrite (Hdy ltac:(lia)) in Hmy.
    assert (Hmx' : (Z.pos mx < 2 ^ prec)%Z).
    { apply Z.lt_le_trans with (2 ^ Z.pos (digits2_pos mx))%Z; [assumption|].
      apply Z.pow_le_mono_r; lia. }
    replace (ey - ez)%Z with ((ey - ex) + (ex - ez))%Z by lia.
    rewrite Z.pow_add_r by lia.
    assert (H2 : (2 ^ 1 <= 2 ^ (ey - ex))%Z) by (apply Z.pow_le_mono_r; lia).
    assert (H3 : (2 ^ prec = 2 ^ (prec - 1) * 2 ^ 1)%Z) by reflexivity.
    assert (H4 : (2 ^ prec <= Z.pos my * 2 ^ (ey - ex))%Z).
    { rewrite H3. apply Z.mul_le_mono_nonneg;
        [apply Z.pow_nonneg; lia | exact Hmy | apply Z.pow_nonneg; lia | exact H2]. }
    rewrite Z.mul_assoc. apply Z.mul_lt_mono_pos_r; [assumption | lia].
  - discriminate.
Qed.

Lemma SFsub_finite_pos mx ex my ey :
  SF64sub (S754_finite false mx ex) (S754_finite false my ey) =
  binary_normalize prec emax
    (Z.pos mx * 2 ^ (ex - Z.min ex ey) - Z.pos my * 2 ^ (ey - Z.min ex ey))
    (Z.min ex ey) false.
Proof.
  unfold SF64sub, SFsub, cond_Zopp.
  now rewrite !shl_align_val by lia.
Qed.

Lemma SFltb_zero_round_pos m e :
  (emin <= e)%Z ->
  SFltb (S754_zero false) (binary_round prec emax false m e) = true.
Proof.
  intros He. destruct (binary_round_shape false m e He) as [(m' & e' & ->)| ->];
    reflexivity.
Qed.

Lemma SFltb_zero_round_neg m e :
  (emin <= e)%Z ->
  SFltb (S754_zero false) (binary_round prec emax true m e) = false.
Proof.
  intros He. destruct (binary_round_shape true m e He) as [(m' & e' & ->)| ->];
    reflexivity.
Qed.

(** For two canonical numbers [>= 0.01], [y - x > 0] exactly when [x < y]. *)
Lemma SFsub_sign X Y :
  valid_binary X = true -> valid_binary Y = true ->
  at_least_eps X -> at_least_eps Y ->
  SFltb (S754_zero false) (SF64sub Y X) = SFltb X Y.
Proof.
  intros VX VY HX HY.
  destruct (at_least_eps_shape X HX) as [->|(mx & ex & ->)];
    destruct (at_least_eps_shape Y HY) as [->|(my & ey & ->)];
    try reflexivity.
  simpl in VX, VY.
  destruct (bounded_facts _ _ VX) as (Hex & _).
  destruct (bounded_facts _ _ VY) as (Hey & _).
  rewrite SFsub_finite_pos. unfold SFltb at 2.
  destruct (SFcompare (S754_finite false mx ex) (S754_finite false my ey))
    as [[| |]|] eqn:Hc.
  - apply SFcompare_Eq_finite in Hc. injection Hc as -> ->.
    now rewrite Z.sub_diag.
  - pose proof (compare_Lt_aligned mx ex my ey (Z.min ey ex) VX VY Hc
                  ltac:(lia) ltac:(lia)) as Hlt.
    destruct (Z.pos my * 2 ^ (ey - Z.min ey ex) -
              Z.pos mx * 2 ^ (ex - Z.min ey ex))%Z as [|D|D] eqn:ED; try lia.
    simpl. apply SFltb_zero_round_pos. lia.
  - assert (Hc' : SFcompare (S754_finite false my ey) (S754_finite false mx ex)
                  = Some Lt).
    { rewrite SFcompare_antisym, Hc. reflexivity. }
    pose proof (compare_Lt_aligned my ey mx ex (Z.min ey ex) VY VX Hc'
                  ltac:(lia) ltac:(lia)) as Hlt.
    destruct (Z.pos my * 2 ^ (ey - Z.min ey ex) -
              Z.pos mx * 2 ^ (ex - Z.min ey ex))%Z as [|D|D] eqn:ED; try lia.
    simpl. apply SFltb_zero_round_neg. lia.
  - simpl in Hc. discriminate.
Qed.

(** Subtracting a finite positive number from a number [>= 0.01] never
    gives [NaN]. *)
Lemma SFsub_not_nan X mx ex :
  valid_binary X = true -> bounded prec emax mx ex = true ->
  at_least_eps X ->
  SF64sub X (S754_finite false mx ex) <> S754_nan.
Proof.
  intros VX VY HX.
  destruct (at_least_eps_shape X HX) as [->|(my & ey & ->)]; [discriminate|].
  simpl in VX.
  destruct (bounded_facts _ _ VX) as (Hey & _).
  destruct (bounded_facts _ _ VY) as (Hex & _).
  rewrite SFsub_finite_pos.
  destruct (Z.pos my * 2 ^ (ey - Z.min ey ex) -
            Z.pos mx * 2 ^ (ex - Z.min ey ex))%Z as [|D|D]; simpl.
  - discriminate.
  - destruct (binary_round_shape false D (Z.min ey ex) ltac:(lia))
      as [(m' & e' & ->)| ->]; discriminate.
  - destruct (binary_round_shape true D (Z.min ey ex) ltac:(lia))
      as [(m' & e' & ->)| ->]; discriminate.
Qed.

Lemma SFsub_self s m e :
  SF64sub (S754_finite s m e) (S754_finite s m e) = S754_zero false.
Proof.
  unfold SF64sub, SFsub. now rewrite Z.sub_diag.
Qed.


(** *** The same facts on numbers *)

Lemma at_least_epsilon_spec a :
  at_least_epsilon a <-> at_least_eps (Prim2SF a).
Proof.
  unfold at_least_epsilon, at_least_eps, epsilon.
  now rewrite FloatAxioms.leb_spec, Prim2SF_eps.
Qed.

Lemma at_least_epsilon_shape a :
  at_least_epsilon a ->
  Prim2SF a = S754_infinity false \/ exists m e, Prim2SF a = S754_finite false m e.
Proof.
  intros H. now apply at_least_eps_shape, at_least_epsilon_spec.
Qed.

Lemma at_least_epsilon_finite a :
  at_least_epsilon a -> is_infinite a = false ->
  exists m e, Prim2SF a = S754_finite false m e.
Proof.
  intros H Hfin. unfold is_infinite in Hfin.
  destruct (at_least_epsilon_shape a H) as [E|E]; [|exact E].
  rewrite E in Hfin. discriminate.
Qed.

Lemma gt_at_least_epsilon v : gt v 0.01 = true -> at_least_epsilon v.
Proof.
  unfold gt. rewrite FloatAxioms.ltb_spec, Prim2SF_eps. intros H.
  apply at_least_epsilon_spec. now apply SFltb_SFleb.
Qed.

(** A number below a negative bound [-t] is not above [t], and its
    absolute value is at least [t]. *)
Lemma SFltb_neg_bound V M E :
  SFltb V (S754_finite true M E) = true ->
  SFltb (S754_finite false M E) V = false /\
  SFleb (S754_finite false M E) (SFabs V) = true.
Proof.
  unfold SFltb, SFleb.
  destruct V as [s|[|]| |[|] m e]; simpl; try discriminate; auto.
  rewrite (Z.compare_antisym e E), (ZC4 M m).
  destruct (e ?= E)%Z; simpl; try discriminate; auto.
  destruct (Pos.compare_cont Eq m M); simpl; try discriminate; auto.
Qed.

(** A balance below [-0.01] is not above [0.01], and its absolute value is
    at least [0.01]. *)
Lemma lt_neg_epsilon v :
  lt v (-0.01) = true ->
  gt v 0.01 = false /\ at_least_epsilon (Math_abs v).
Proof.
  unfold lt, gt, Math_abs. rewrite at_least_epsilon_spec.
  rewrite !FloatAxioms.ltb_spec, abs_spec, Prim2SF_eps, Prim2SF_neg_eps.
  apply SFltb_neg_bound.
Qed.

Lemma is_infinite_abs v : is_infinite (Math_abs v) = is_infinite v.
Proof.
  unfold is_infinite, Math_abs. rewrite abs_spec.
  now destruct (Prim2SF v).
Qed.

(** The comparator of the sort: for amounts [>= 0.01], [b - a > 0] exactly
    when [a < b]. *)
Lemma gt_sub_zero a b :
  at_least_epsilon a -> at_least_epsilon b ->
  gt (b - a) 0 = (a <? b).
Proof.
  intros Ha Hb. unfold gt.
  rewrite !FloatAxioms.ltb_spec, FloatAxioms.sub_spec, Prim2SF_zero.
  apply SFsub_sign; try apply Prim2SF_valid; now apply at_least_epsilon_spec.
Qed.

Lemma ltb_leb a b : (a <? b) = true -> (a <=? b) = true.
Proof.
  rewrite FloatAxioms.ltb_spec, FloatAxioms.leb_spec. apply SFltb_SFleb.
Qed.

Lemma at_least_epsilon_not_nan a :
  at_least_epsilon a -> Prim2SF a <> S754_nan.
Proof.
  intros H. destruct (at_least_epsilon_shape a H) as [E|(m & e & E)];
    rewrite E; discriminate.
Qed.

Lemma ltb_false_leb a b :
  at_least_epsilon a -> at_least_epsilon b ->
  (a <? b) = false -> (b <=? a) = true.
Proof.
  intros Ha Hb. rewrite FloatAxioms.ltb_spec, FloatAxioms.leb_spec.
  apply SFltb_false_SFleb; now apply at_least_epsilon_not_nan.
Qed.

(** A finite amount minus itself is [+0], which is below the threshold. *)
Lemma sub_self a :
  at_least_epsilon a -> is_infinite a = false -> a - a = 0.
Proof.
  intros Ha Hfin. destruct (at_least_epsilon_finite a Ha Hfin) as (m & e & E).
  apply Prim2SF_inj. rewrite FloatAxioms.sub_spec, E, Prim2SF_zero.
  apply SFsub_self.
Qed.

(** What is left of an amount after a finite payment, if it is not below
    the threshold, is at least the threshold: it is not [NaN]. *)
Lemma sub_at_least_epsilon d c :
  at_least_epsilon d -> at_least_epsilon c -> is_infinite c = false ->
  lt (d - c) 0.01 = false ->
  at_least_epsilon (d - c).
Proof.
  intros Hd Hc Hfin. unfold lt. intros Hlt.
  destruct (at_least_epsilon_finite c Hc Hfin) as (m & e & E).
  apply at_least_epsilon_spec. unfold at_least_eps.
  rewrite FloatAxioms.ltb_spec, Prim2SF_eps in Hlt.
  apply SFltb_false_SFleb; [|discriminate|exact Hlt].
  rewrite FloatAxioms.sub_spec, E.
  apply SFsub_not_nan.
  - apply Prim2SF_valid.
  - pose proof (Prim2SF_valid c) as V. now rewrite E in V.
  - now apply at_least_epsilon_spec.
Qed.

Lemma ltb_not_infinite c d :
  at_least_epsilon c -> (c <? d) = true -> is_infinite c = false.
Proof.
  intros Hc. rewrite FloatAxioms.ltb_spec. unfold is_infinite.
  destruct (at_least_epsilon_shape c Hc) as [E|(m & e & E)]; rewrite E.
  - unfold SFltb. destruct (Prim2SF d) as [s|[|]| |s m e]; discriminate.
  - reflexivity.
Qed.

(** [Math.min] of two amounts [>= 0.01] is one of them: the smaller, or
    both when they are equal. *)
Lemma Math_min_cases c d :
  at_least_epsilon c -> at_least_epsilon d ->
  (Math_min c d = c /\ (c <? d) = true) \/
  (Math_min c d = d /\ (d <? c) = true) \/
  (Math_min c d = c /\ c = d).
Proof.
  intros Hc Hd. unfold Math_min.
  assert (Nc : JSNum.is_nan c = false)
    by (apply JSNumFacts.is_nan_false; now apply at_least_epsilon_not_nan).
  assert (Nd : JSNum.is_nan d = false)
    by (apply JSNumFacts.is_nan_false; now apply at_least_epsilon_not_nan).
  rewrite Nc, Nd. simpl.
  destruct (c <? d) eqn:Hcd; [now left|].
  destruct (d <? c) eqn:Hdc; [right; now left|].
  right. right.
  assert (E : c = d).
  { rewrite FloatAxioms.ltb_spec in Hcd, Hdc. unfold SFltb in Hcd, Hdc.
    rewrite (SFcompare_antisym (Prim2SF c) (Prim2SF d)) in Hdc.
    apply Prim2SF_inj.
    destruct (at_least_epsilon_shape c Hc) as [Ec|(m & e & Ec)];
      destruct (at_least_epsilon_shape d Hd) as [Ed|(m' & e' & Ed)];
      rewrite Ec, Ed in *; try discriminate; try reflexivity.
    destruct (SFcompare (S754_finite false m e) (S754_finite false m' e'))
      as [[| |]|] eqn:Hcmp; try discriminate.
    now apply SFcompare_Eq_finite in Hcmp. }
  subst d. now destruct (get_sign c).
Qed.

(** The order on amounts [>= 0.01] is transitive. *)
Lemma SFleb_finite_pos m1 e1 m2 e2 :
  SFleb (S754_finite false m1 e1) (S754_finite false m2 e2) = true <->
  (e1 < e2)%Z \/ (e1 = e2 /\ (m1 <= m2)%positive).
Proof.
  unfold SFleb. simpl.
  destruct (Z.compare_spec e1 e2) as [He|He|He].
  - change (Pos.compare_cont Eq m1 m2) with (m1 ?= m2)%positive.
    destruct (Pos.compare_spec m1 m2) as [Hm|Hm|Hm]; split; intros H;
      try discriminate; try reflexivity; lia.
  - split; [intros _; now left | reflexivity].
  - split; [discriminate | lia].
Qed.

Lemma SFleb_trans X Y Z :
  at_least_eps X -> at_least_eps Y -> at_least_eps Z ->
  SFleb X Y = true -> SFleb Y Z = true -> SFleb X Z = true.
Proof.
  intros HX HY HZ.
  destruct (at_least_eps_shape X HX) as [->|(mx & ex & ->)];
    destruct (at_least_eps_shape Y HY) as [->|(my & ey & ->)];
    destruct (at_least_eps_shape Z HZ) as [->|(mz & ez & ->)];
    try reflexivity; try discriminate; try (intros _; discriminate).
  rewrite !SFleb_finite_pos. lia.
Qed.

Lemma leb_trans a b c :
  at_least_epsilon a -> at_least_epsilon b -> at_least_epsilon c ->
  (a <=? b) = true -> (b <=? c) = true -> (a <=? c) = true.
Proof.
  intros Ha Hb Hc. rewrite !FloatAxioms.leb_spec.
  apply SFleb_trans; now apply at_least_epsilon_spec.
Qed.

End FloatOrder.

(** ** Numbers: a payment above the threshold is recorded as at least 0.01 *)

Module RoundingBound.
Import Binary64 FloatOrder.

Local Open Scope float_scope.

Lemma Prim2SF_hundred : Prim2SF 100 = S754_finite false hundred_m hundred_e.
Proof. reflexivity. Qed.

Lemma digits_hundred : Z.pos (digits2_pos hundred_m) = 53%Z.
Proof. reflexivity. Qed.

Lemma digits_ge k m :
  (0 <= k)%Z -> (2 ^ k <= Z.pos m)%Z -> (k + 1 <= Z.pos (digits2_pos m))%Z.
Proof.
  intros Hk Hm. pose proof (digits2_bounds m) as [_ Hup].
  assert (H : (2 ^ k < 2 ^ Z.pos (digits2_pos m))%Z) by lia.
  apply Z.pow_lt_mono_r_iff in H; lia.
Qed.

Lemma digits_mono m1 m2 :
  (Z.pos m1 <= Z.pos m2)%Z -> (Z.pos (digits2_pos m1) <= Z.pos (digits2_pos m2))%Z.
Proof.
  intros H. pose proof (digits2_bounds m1) as [Hlo _].
  assert (H' := digits_ge (Z.pos (digits2_pos m1) - 1) m2 ltac:(lia) ltac:(lia)).
  lia.
Qed.

(** Shifting to the canonical exponent does not lower the weight of the
    leading bit. *)
Lemma shr_fexp_mag m e l :
  (emin <= e)%Z ->
  exists m1,
    shr_m (fst (shr_fexp prec emax (Z.pos m) e l)) = Z.pos m1 /\
    (emin <= snd (shr_fexp prec emax (Z.pos m) e l))%Z /\
    (Z.pos (digits2_pos m) + e <=
     Z.pos (digits2_pos m1) + snd (shr_fexp prec emax (Z.pos m) e l))%Z.
Proof.
  intros He. unfold shr_fexp, shr. simpl Zdigits2.
  pose proof (digits2_bounds m) as [Hlo _].
  destruct (fexp prec emax (Z.pos (digits2_pos m) + e) - e)%Z as [|n|n] eqn:En;
    simpl fst; simpl snd; rewrite ?shr_record_of_loc_m;
    try (exists m; repeat split; lia).
  rewrite shr_m_iter by (rewrite shr_record_of_loc_m; lia).
  rewrite shr_record_of_loc_m.
  unfold fexp in En.
  assert (Hn : (Z.pos n = Z.pos (digits2_pos m) - prec)%Z) by lia.
  assert (Hq : (2 ^ (Z.pos (digits2_pos m) - 1 - Z.pos n) <= Z.pos m / 2 ^ Z.pos n)%Z).
  { apply Z.div_le_lower_bound; [lia|].
    rewrite <- Z.pow_add_r by (unfold prec in Hn; lia).
    replace (Z.pos n + (Z.pos (digits2_pos m) - 1 - Z.pos n))%Z
      with (Z.pos (digits2_pos m) - 1)%Z by lia.
    exact Hlo. }
  assert (Hpos : (0 < 2 ^ (Z.pos (digits2_pos m) - 1 - Z.pos n))%Z)
    by (apply Z.pow_pos_nonneg; unfold prec in Hn; lia).
  destruct (Z.pos m / 2 ^ Z.pos n)%Z as [|m1|m1] eqn:Em1; try lia.
  exists m1. split; [reflexivity|]. split; [lia|].
  assert (H0 : (0 <= Z.pos (digits2_pos m) - 1 - Z.pos n)%Z)
    by (unfold prec in Hn; lia).
  pose proof (digits_ge _ m1 H0 Hq). lia.
Qed.

(** Rounding a positive mantissa at an exponent [>= emin] does not lower
    the weight of the leading bit. *)
Lemma binary_round_aux_mag k m e l :
  (emin <= e)%Z -> (k <= Z.pos (digits2_pos m) + e)%Z ->
  mag_ge k (binary_round_aux prec emax false (Z.pos m) e l).
Proof.
  intros He Hk. unfold binary_round_aux.
  destruct (shr_fexp_mag m e l He) as (m1 & E1 & He1 & Hm1).
  destruct (shr_fexp prec emax (Z.pos m) e l) as [mrs' e'].
  simpl in E1, He1, Hm1. rewrite E1.
  pose proof (round_nearest_even_ge (Z.pos m1) (loc_of_shr_record mrs')) as Hge.
  destruct (round_nearest_even (Z.pos m1) (loc_of_shr_record mrs'))
    as [|m2|m2]; try lia.
  pose proof (digits_mono m1 m2 Hge) as Hd.
  destruct (shr_fexp_mag m2 e' loc_Exact He1) as (m3 & E3 & He3 & Hm3).
  destruct (shr_fexp prec emax (Z.pos m2) e' loc_Exact) as [mrs'' e''].
  simpl in E3, He3, Hm3. rewrite E3.
  destruct (e'' <=? emax - prec)%Z; [right|now left].
  exists m3, e''. split; [reflexivity | lia].
Qed.

Lemma binary_round_mag k m e :
  (emin <= e)%Z -> (k <= Z.pos (digits2_pos m) + e)%Z ->
  mag_ge k (binary_round prec emax false m e).
Proof.
  intros He Hk. unfold binary_round.
  pose proof (digits2_bounds m) as [Hlo _].
  destruct (shl_align m e (fexp prec emax (Z.pos (digits2_pos m) + e)))
    as [mz ez] eqn:Es.
  assert (Hz : (emin <= ez)%Z /\ (ez <= e)%Z /\
               Z.pos mz = (Z.pos m * 2 ^ (e - ez))%Z).
  { unfold shl_align in Es.
    destruct (fexp prec emax (Z.pos (digits2_pos m) + e) - e)%Z as [|d|d] eqn:Ed;
      injection Es as <- <-.
    - repeat split; try lia. rewrite Z.sub_diag. lia.
    - repeat split; try lia. rewrite Z.sub_diag. lia.
    - unfold fexp in *. repeat split; try lia.
      change (Pos.iter xO m d) with (shift_pos d m).
      rewrite shift_pos_correct.
      change (Z.pow_pos 2 d) with (2 ^ Z.pos d)%Z.
      replace (e - Z.max (Z.pos (digits2_pos m) + e - prec) emin)%Z
        with (Z.pos d) by lia. lia. }
  destruct Hz as (Hez & Hle & Hval).
  apply binary_round_aux_mag; [assumption|].
  assert (H : (Z.pos (digits2_pos m) - 1 + (e - ez) + 1 <= Z.pos (digits2_pos mz))%Z).
  { apply digits_ge; [lia|]. rewrite Hval, Z.pow_add_r by lia.
    apply Z.mul_le_mono_nonneg_r; [apply Z.pow_nonneg; lia | exact Hlo]. }
  lia.
Qed.


(** A product of two positive numbers. *)
Lemma SFmul_mag k1 k2 m1 e1 m2 e2 :
  (emin <= e1 + e2)%Z ->
  (k1 <= Z.pos (digits2_pos m1) + e1)%Z ->
  (k2 <= Z.pos (digits2_pos m2) + e2)%Z ->
  mag_ge (k1 + k2 - 1)
    (SF64mul (S754_finite false m1 e1) (S754_finite false m2 e2)).
Proof.
  intros He H1 H2. unfold SF64mul, SFmul. simpl xorb.
  apply binary_round_aux_mag; [assumption|].
  pose proof (digits2_bounds m1) as [L1 _].
  pose proof (digits2_bounds m2) as [L2 _].
  assert (H : (Z.pos (digits2_pos m1) - 1 + (Z.pos (digits2_pos m2) - 1) + 1
               <= Z.pos (digits2_pos (m1 * m2)))%Z).
  { apply digits_ge; [lia|]. rewrite Z.pow_add_r by lia.
    rewrite Pos2Z.inj_mul.
    apply Z.mul_le_mono_nonneg; try assumption; apply Z.pow_nonneg; lia. }
  lia.
Qed.

(** A valid number [>= 0.01] times 100 is at least [1/2]. *)
Lemma mul_hundred_mag m e :
  bounded prec emax m e = true ->
  SFltb (S754_finite false eps_m eps_e) (S754_finite false m e) = true ->
  mag_ge 0 (SF64mul (S754_finite false m e) (S754_finite false hundred_m hundred_e)).
Proof.
  intros B Hlt.
  destruct (bounded_facts _ _ B) as (He & _ & Hd).
  assert (Hle : SFleb (S754_finite false eps_m eps_e) (S754_finite false m e) = true)
    by now apply SFltb_SFleb.
  apply SFleb_finite_pos in Hle.
  assert (Hee : (eps_e <= e)%Z) by lia.
  assert (Hdm : Z.pos (digits2_pos m) = prec) by (apply Hd; format_lia).
  change 0%Z with (-6 + 7 - 1)%Z.
  apply SFmul_mag.
  - format_lia.
  - rewrite Hdm. format_lia.
  - rewrite digits_hundred. format_lia.
Qed.

(** The integer nearest to a number [>= 1/2] is 1, or a number [>= 2]. *)
Lemma Math_round_mag v m e :
  Prim2SF v = S754_finite false m e ->
  (0 <= Z.pos (digits2_pos m) + e)%Z ->
  Math_round v = of_Z 1 \/ mag_ge 2 (Prim2SF (Math_round v)).
Proof.
  intros Ev Hmag.
  pose proof (Prim2SF_valid v) as V. rewrite Ev in V. simpl in V.
  destruct (bounded_facts _ _ V) as (He & Hd53 & Hd).
  unfold Math_round. rewrite Ev.
  destruct (0 <=? e)%Z eqn:He0.
  - apply Z.leb_le in He0. right. rewrite Ev. right.
    exists m, e. split; [reflexivity|].
    rewrite Hd by format_lia. format_lia.
  - apply Z.leb_gt in He0.
    set (j := (- e)%Z).
    assert (Hj : (1 <= j)%Z) by (unfold j; lia).
    rewrite Z.shiftl_mul_pow2 by lia. rewrite Z.mul_1_l.
    rewrite Z.shiftr_div_pow2 by lia.
    replace (- e - 1)%Z with (j - 1)%Z by (unfold j; lia).
    pose proof (digits2_bounds m) as [Hlo Hup].
    assert (Hpj : (2 ^ j = 2 * 2 ^ (j - 1))%Z).
    { replace j with (Z.succ (j - 1)) at 1 by lia.
      apply Z.pow_succ_r. lia. }
    assert (Hpj1 : (0 < 2 ^ (j - 1))%Z) by (apply Z.pow_pos_nonneg; lia).
    assert (Hhalf : (2 ^ (j - 1) <= Z.pos m)%Z).
    { apply Z.le_trans with (2 ^ (Z.pos (digits2_pos m) - 1))%Z; [|assumption].
      apply Z.pow_le_mono_r; unfold j; lia. }
    assert (Hn1 : (1 <= (Z.pos m + 2 ^ (j - 1)) / 2 ^ j)%Z).
    { apply Z.div_le_lower_bound; lia. }
    assert (Hm53 : (Z.pos m < 2 ^ 53)%Z).
    { apply Z.lt_le_trans with (2 ^ Z.pos (digits2_pos m))%Z; [assumption|].
      apply Z.pow_le_mono_r; unfold prec in Hd53; lia. }
    assert (Hnup : ((Z.pos m + 2 ^ (j - 1)) / 2 ^ j < 2 ^ 53)%Z).
    { apply Z.div_lt_upper_bound; [lia|]. nia. }
    destruct ((Z.pos m + 2 ^ (j - 1)) / 2 ^ j)%Z as [|n|n] eqn:En; try lia.
    change (Z.pos n =? 0)%Z with false. cbv iota.
    destruct (Pos.eq_dec n 1%positive) as [->|Hne]; [now left|].
    right. unfold of_Z. change (Z.pos n <? 0)%Z with false. cbv iota.
    rewrite of_uint63_spec, of_Z_spec.
    rewrite Z.mod_small by (change wB with (2 ^ 63)%Z; lia).
    simpl binary_normalize.
    apply binary_round_mag; [format_lia|].
    assert (H2 : (1 + 1 <= Z.pos (digits2_pos n))%Z)
      by (apply digits_ge; lia).
    lia.
Qed.

(** A number [>= 2] divided by 100 is at least [2 ^ -6], which is above
    0.01. *)
Lemma div_hundred_mag m e :
  bounded prec emax m e = true ->
  (2 <= Z.pos (digits2_pos m) + e)%Z ->
  mag_ge (-5)
    (SF64div (S754_finite false m e) (S754_finite false hundred_m hundred_e)).
Proof.
  intros B Hmag.
  destruct (bounded_facts _ _ B) as (He & Hd53 & _).
  unfold SF64div, SFdiv, SFdiv_core_binary.
  change (xorb false false) with false.
  change (Zdigits2 (Z.pos hundred_m)) with 53%Z.
  change (Zdigits2 (Z.pos m)) with (Z.pos (digits2_pos m)).
  set (d := Z.pos (digits2_pos m)) in *.
  assert (Hfexp : fexp prec emax (d + e - (53 + hundred_e)) = (d + e - 60)%Z).
  { unfold fexp. format_lia. }
  rewrite Hfexp.
  assert (Hmin : Z.min (d + e - 60) (e - hundred_e) = (d + e - 60)%Z).
  { format_lia. }
  rewrite Hmin.
  assert (Hs : (e - hundred_e - (d + e - 60) = 106 - d)%Z)
    by format_lia.
  rewrite Hs.
  assert (Hd1 : (1 <= d)%Z) by (unfold d; lia).
  unfold prec in Hd53.
  destruct (106 - d)%Z as [|s|s] eqn:Es; try lia.
  rewrite Z.shiftl_mul_pow2 by lia.
  pose proof (digits2_bounds m) as [Hlo _]. fold d in Hlo.
  assert (Hnum : (2 ^ 105 <= Z.pos m * 2 ^ Z.pos s)%Z).
  { replace 105%Z with ((d - 1) + Z.pos s)%Z by lia.
    rewrite Z.pow_add_r by lia.
    apply Z.mul_le_mono_nonneg_r; [apply Z.pow_nonneg; lia | exact Hlo]. }
  assert (Hq : (2 ^ 52 <= Z.pos m * 2 ^ Z.pos s / Z.pos hundred_m)%Z).
  { apply Z.div_le_lower_bound; [lia|].
    apply Z.le_trans with (2 ^ 105)%Z; [|exact Hnum].
    unfold hundred_m. vm_compute. discriminate. }
  pose proof (Z_div_mod_eq_full (Z.pos m * 2 ^ Z.pos s) (Z.pos hundred_m)) as _.
  unfold Z.div in Hq.
  destruct (Z.div_eucl (Z.pos m * 2 ^ Z.pos s) (Z.pos hundred_m)) as [q r].
  simpl fst in Hq.
  assert (H252 : (0 < 2 ^ 52)%Z) by reflexivity.
  destruct q as [|q|q]; try lia.
  apply binary_round_aux_mag.
  - format_lia.
  - pose proof (digits_ge 52 q ltac:(lia) Hq). lia.
Qed.

(** A valid number that is at least [2 ^ -6] is at least 0.01. *)
Lemma mag_ge_at_least_eps X :
  valid_binary X = true -> mag_ge (-5) X -> at_least_eps X.
Proof.
  intros V [->|(m & e & -> & Hmag)]; [reflexivity|].
  simpl in V. destruct (bounded_facts _ _ V) as (_ & Hd & _).
  unfold at_least_eps. apply SFleb_finite_pos. left.
  format_lia.
Qed.

(** The recorded amount of a payment above the threshold is at least the
    threshold. *)
Lemma round2_at_least_epsilon p :
  gt p 0.01 = true -> at_least_epsilon (round2 p).
Proof.
  unfold gt. rewrite FloatAxioms.ltb_spec, Prim2SF_eps. intros Hlt.
  assert (Hshape : Prim2SF p = S754_infinity false \/
                   exists m e, Prim2SF p = S754_finite false m e).
  { apply at_least_eps_shape. now apply SFltb_SFleb. }
  destruct Hshape as [Ep|(m & e & Ep)].
  - assert (p = infinity) as -> by (now apply Prim2SF_inj).
    reflexivity.
  - pose proof (Prim2SF_valid p) as V. rewrite Ep in V, Hlt. simpl in V.
    pose proof (mul_hundred_mag m e V Hlt) as Hv.
    unfold round2.
    assert (Ev : Prim2SF (p * 100) =
                 SF64mul (S754_finite false m e)
                         (S754_finite false hundred_m hundred_e)).
    { now rewrite FloatAxioms.mul_spec, Ep, Prim2SF_hundred. }
    rewrite <- Ev in Hv.
    destruct Hv as [Einf|(mv & ev & Efin & Hmag)].
    + assert (p * 100 = infinity) as -> by (now apply Prim2SF_inj).
      reflexivity.
    + destruct (Math_round_mag _ _ _ Efin Hmag) as [-> |Hw]; [reflexivity|].
      apply at_least_epsilon_spec.
      pose proof (Prim2SF_valid (Math_round (p * 100) / 100)) as Vr.
      pose proof (Prim2SF_valid (Math_round (p * 100))) as Vw.
      rewrite FloatAxioms.div_spec, Prim2SF_hundred in Vr |- *.
      destruct Hw as [Ew|(mw & ew & Ew & Hmw)]; rewrite Ew in Vr, Vw |- *;
        [reflexivity|].
      apply mag_ge_at_least_eps; [exact Vr|].
      now apply div_hundred_mag.
Qed.

End RoundingBound.

(** ** Numbers: a payment added and a payment taken off *)

Module PaymentFloats.
Import Binary64 FloatOrder JSNumFacts.

Local Open Scope float_scope.

(** The sign of the result is the only place where the sign given to
    [binary_round_aux] shows. *)
Lemma binary_round_aux_opp s m e l :
  SFopp (binary_round_aux prec emax s m e l) =
  binary_round_aux prec emax (negb s) m e l.
Proof.
  unfold binary_round_aux.
  destruct (shr_fexp prec emax m e l) as [mrs' e'].
  destruct (shr_fexp prec emax _ e' loc_Exact) as [mrs'' e''].
  destruct (shr_m mrs'') as [|p|p]; try reflexivity.
  destruct (e'' <=? emax - prec)%Z; reflexivity.
Qed.

Lemma binary_round_opp s m e :
  SFopp (binary_round prec emax s m e) = binary_round prec emax (negb s) m e.
Proof.
  unfold binary_round. destruct (shl_align m e _) as [mz ez].
  apply binary_round_aux_opp.
Qed.

Lemma binary_normalize_opp z e :
  z <> 0%Z ->
  SFopp (binary_normalize prec emax z e false) =
  binary_normalize prec emax (- z) e false.
Proof.
  intros Hz. destruct z as [|p|p]; [congruence| |];
    simpl; apply binary_round_opp.
Qed.

Lemma cond_Zopp_negb s z : cond_Zopp (negb s) z = (- cond_Zopp s z)%Z.
Proof. destruct s; simpl; lia. Qed.

(** [-a + p] is the opposite of [a - p], unless both are [+0]. *)
Lemma SFadd_opp_sub A P :
  SF64add (SFopp A) P = SFopp (SF64sub A P) \/
  (SF64sub A P = S754_zero false /\ SF64add (SFopp A) P = S754_zero false).
Proof.
  destruct A as [sa|sa| |sa ma ea], P as [sp|sp| |sp mp ep];
    try (left; reflexivity);
    try (destruct sa, sp; simpl; auto; fail).
  unfold SF64add, SF64sub, SFadd, SFsub. cbn [SFopp].
  set (ez := Z.min ea ep).
  set (za := cond_Zopp sa (Z.pos (fst (shl_align ma ea ez)))).
  set (zp := cond_Zopp sp (Z.pos (fst (shl_align mp ep ez)))).
  rewrite cond_Zopp_negb. fold za.
  destruct (Z.eq_dec (za - zp)%Z 0%Z) as [E|E].
  - right. rewrite E. replace (- za + zp)%Z with 0%Z by lia. split; reflexivity.
  - left. rewrite (binary_normalize_opp _ _ E). f_equal. lia.
Qed.

Lemma lt_spec x y : lt x y = SFltb (Prim2SF x) (Prim2SF y).
Proof. apply FloatAxioms.ltb_spec. Qed.

Lemma sub_nan x : x - nan = nan.
Proof.
  apply Prim2SF_inj. rewrite FloatAxioms.sub_spec, Prim2SF_nan.
  now destruct (Prim2SF x).
Qed.

Lemma lt_nan_l y : lt nan y = false.
Proof. rewrite lt_spec, Prim2SF_nan. reflexivity. Qed.

Lemma is_nan_Prim2SF x : is_nan x = true -> x = nan.
Proof.
  intros H. apply Prim2SF_inj. rewrite Prim2SF_nan.
  destruct (Prim2SF x) eqn:E; try reflexivity;
    (assert (N : is_nan x = false)
       by (apply is_nan_false; rewrite E; discriminate); congruence).
Qed.

(** As long as an amount is not below the threshold, adding the payment to
    the opposite of the amount and taking the payment off the amount give
    opposite numbers. *)
Lemma neg_add_sub a p :
  lt (a - p) 0.01 = false -> - a + p = - (a - p).
Proof.
  intros Hlt. apply Prim2SF_inj.
  rewrite FloatAxioms.add_spec, !FloatAxioms.opp_spec, FloatAxioms.sub_spec.
  destruct (SFadd_opp_sub (Prim2SF a) (Prim2SF p)) as [E|[E _]]; [exact E|].
  rewrite lt_spec, FloatAxioms.sub_spec, E in Hlt. discriminate.
Qed.

Lemma below_threshold_opp x : below_threshold x -> below_threshold (- x).
Proof.
  unfold below_threshold, Math_abs.
  rewrite !FloatAxioms.ltb_spec, !FloatAxioms.abs_spec, FloatAxioms.opp_spec.
  now destruct (Prim2SF x).
Qed.

Lemma below_threshold_zero : below_threshold 0.
Proof. reflexivity. Qed.

Lemma neg_add_below a p :
  below_threshold (a - p) -> below_threshold (- a + p).
Proof.
  intros H.
  assert (E : Prim2SF (- a + p) = SFopp (Prim2SF (a - p)) \/
              Prim2SF (- a + p) = S754_zero false).
  { rewrite FloatAxioms.add_spec, !FloatAxioms.opp_spec, FloatAxioms.sub_spec.
    destruct (SFadd_opp_sub (Prim2SF a) (Prim2SF p)) as [E|[_ E]]; auto. }
  destruct E as [E|E].
  - rewrite <- FloatAxioms.opp_spec in E. apply Prim2SF_inj in E.
    rewrite E. now apply below_threshold_opp.
  - change (S754_zero false) with (Prim2SF 0) in E. apply Prim2SF_inj in E.
    rewrite E. apply below_threshold_zero.
Qed.

(** A positive number below 0.01 is within 0.01 of 0. *)
Lemma positive_below x :
  gt x 0 = true -> lt x 0.01 = true -> below_threshold x.
Proof.
  unfold below_threshold, Math_abs, gt.
  rewrite !FloatAxioms.ltb_spec, FloatAxioms.abs_spec.
  destruct (Prim2SF x) as [s|[|]| |[|] m e]; try discriminate; auto.
Qed.

(** What is not below the threshold is an amount at least the threshold,
    or [NaN]. *)
Lemma not_lt_live x : lt x 0.01 = false -> live x.
Proof.
  intros H. unfold live.
  destruct (is_nan x) eqn:N; [now right|left].
  apply is_nan_false in N.
  apply at_least_epsilon_spec. unfold at_least_eps.
  rewrite lt_spec in H. apply SFltb_false_SFleb in H; try assumption.
  discriminate.
Qed.

(** The entry that an iteration removes is within 0.01 of 0. *)
Lemma removed_below a d :
  live a -> live d ->
  (lt (a - Math_min a d) 0.01 = true -> below_threshold (a - Math_min a d)) /\
  (lt (d - Math_min a d) 0.01 = true -> below_threshold (d - Math_min a d)).
Proof.
  intros [Ha|Ha] [Hd|Hd].
  - destruct (Math_min_cases a d Ha Hd) as [[-> Hlt]|[[-> Hlt]|[-> Heq]]].
    + split; intros H.
      * pose proof (ltb_not_infinite _ _ Ha Hlt) as Hfin.
        rewrite (sub_self _ Ha Hfin). apply below_threshold_zero.
      * apply positive_below; [|assumption].
        now rewrite gt_sub_zero.
    + split; intros H.
      * apply positive_below; [|assumption].
        now rewrite gt_sub_zero.
      * pose proof (ltb_not_infinite _ _ Hd Hlt) as Hfin.
        rewrite (sub_self _ Hd Hfin). apply below_threshold_zero.
    + subst d.
      assert (Hz : lt (a - a) 0.01 = true -> below_threshold (a - a)).
      { intros H. destruct (is_infinite a) eqn:Hinf.
        - exfalso. unfold is_infinite in Hinf.
          rewrite lt_spec, FloatAxioms.sub_spec in H.
          destruct (Prim2SF a) as [s|[|]| |s m e]; discriminate.
        - rewrite (sub_self _ Ha Hinf). apply below_threshold_zero. }
      now split.
  - apply is_nan_Prim2SF in Hd. subst d.
    assert (E : Math_min a nan = nan).
    { unfold Math_min. now rewrite orb_true_r. }
    rewrite E, ?sub_nan, ?nan_sub, lt_nan_l. split; discriminate.
  - apply is_nan_Prim2SF in Ha. subst a.
    assert (E : Math_min nan d = nan) by reflexivity.
    rewrite E, ?sub_nan, ?nan_sub, lt_nan_l. split; discriminate.
  - apply is_nan_Prim2SF in Ha. subst a.
    assert (E : Math_min nan d = nan) by reflexivity.
    rewrite E, ?sub_nan, ?nan_sub, lt_nan_l. split; discriminate.
Qed.

(** A balance below [-0.01] is the opposite of its absolute value. *)
Lemma opp_abs_negative v : lt v (-0.01) = true -> v = - Math_abs v.
Proof.
  intros H. apply Prim2SF_inj. unfold Math_abs.
  rewrite FloatAxioms.opp_spec, FloatAxioms.abs_spec.
  rewrite lt_spec in H.
  destruct (Prim2SF v) as [s|[|]| |[|] m e]; try discriminate; reflexivity.
Qed.

End PaymentFloats.

(** ** The heap: what [resolveSettlements] writes *)

Module HeapFacts.

Implicit Types (h : Heap) (l : loc).

Lemma length_set_name l k v h : length (set_name l k v h) = length h.
Proof.
  unfold set_name. destruct (h !! l) as [[o|m]|]; try reflexivity.
  destruct (_ && _); [reflexivity|]. apply length_insert.
Qed.

Lemma lookup_set_name_ne l l' k v h :
  l <> l' -> set_name l k v h !! l' = h !! l'.
Proof.
  intros Hne. unfold set_name. destruct (h !! l) as [[o|m]|]; try reflexivity.
  destruct (_ && _); [reflexivity|]. now apply list_lookup_insert_ne.
Qed.

(** Filling [personMap] leaves every object that was there before as it
    was, and adds one object. *)
Lemma fill_person_map_frame persons personMap :
  forall h,
    length (fill_person_map personMap persons h) = length h /\
    forall l, l <> personMap -> fill_person_map personMap persons h !! l = h !! l.
Proof.
  unfold fill_person_map. induction persons as [|p ps IH]; simpl; intros h.
  - split; reflexivity.
  - destruct (IH (set_name personMap (person_id p) (person_name p) h)) as [H1 H2].
    rewrite length_set_name in H1. split; [assumption|].
    intros l Hl. rewrite H2 by assumption. now apply lookup_set_name_ne.
Qed.

Lemma fill_person_map_kind persons personMap :
  forall h m,
    h !! personMap = Some (NameObj m) ->
    exists m', fill_person_map personMap persons h !! personMap = Some (NameObj m').
Proof.
  unfold fill_person_map. induction persons as [|p ps IH]; simpl; intros h m Hm.
  - now exists m.
  - unfold set_name. rewrite Hm. destruct (_ && _).
    + now apply (IH _ m).
    + apply (IH _ (<[person_id p := person_name p]> m)).
      apply list_lookup_insert_eq. now apply lookup_lt_Some in Hm.
Qed.

(** The heap after the function has created and filled [personMap]: the
    given heap followed by one object of names. *)
Lemma person_map_heap persons h :
  exists m, fill_person_map (length h) persons (h ++ [NameObj ∅]) = h ++ [NameObj m].
Proof.
  destruct (fill_person_map_frame persons (length h) (h ++ [NameObj ∅]))
    as [Hlen Hlook].
  destruct (fill_person_map_kind persons (length h) (h ++ [NameObj ∅]) ∅)
    as [m Hm].
  { rewrite lookup_app_r by lia. now rewrite Nat.sub_diag. }
  exists m. apply list_eq. intros i.
  destruct (decide (i = length h)) as [->|Hne].
  - rewrite Hm. rewrite lookup_app_r by lia. now rewrite Nat.sub_diag.
  - rewrite Hlook by assumption.
    destruct (decide (i < length h)).
    + now rewrite !lookup_app_l by lia.
    + rewrite !lookup_app_r by lia.
      destruct (i - length h) as [|j] eqn:E; [lia | reflexivity].
Qed.

(** The function, with the heap it leaves spelled out: the given heap, then
    [personMap], then [workingBalances]. *)
Lemma resolveSettlements_unfold balances persons h :
  exists m, forall fuel,
    resolveSettlements fuel balances persons h =
    match h !! balances with
    | Some (NumObj b) =>
        match while_loop fuel (initial_state (JSObject.spread b)) with
        | Some st =>
            Some (h ++ [NameObj m; NumObj (JSObject.spread b)],
                  settlements st)
        | None => None
        end
    | _ => None
    end.
Proof.
  destruct (person_map_heap persons h) as [m Hm]. exists m. intros fuel.
  unfold resolveSettlements, alloc. rewrite Hm.
  destruct (h !! balances) as [obj|] eqn:Hb.
  - assert (Hlt : balances < length h) by (now apply lookup_lt_Some in Hb).
    rewrite lookup_app_l by assumption. rewrite Hb.
    destruct obj as [b|m']; [|reflexivity].
    destruct (while_loop fuel _); [|reflexivity].
    now rewrite <- app_assoc.
  - apply lookup_ge_None in Hb.
    destruct (decide (balances = length h)) as [->|Hne].
    + rewrite lookup_app_r by lia. now rewrite Nat.sub_diag.
    + rewrite lookup_ge_None_2; [reflexivity|].
      rewrite length_app. simpl. lia.
Qed.

End HeapFacts.

(** ** The matching loop: runs, invariants, and the working lists *)

Module LoopFacts.

Implicit Types (st : LoopState) (wb : JSObject.t number).

Lemma iterate_invariant (P : LoopState -> Prop) st :
  P st ->
  (forall s, P s -> loop_cond s = true -> P (loop_body s)) ->
  forall n, P (iterate n st).
Proof.
  intros H0 Hstep n. revert st H0.
  induction n as [|n IH]; simpl; intros st H0; [assumption|].
  destruct (loop_cond st) eqn:Hc; [|assumption].
  apply IH. now apply Hstep.
Qed.

(** A run that ends is a finite number of iterations. *)
Lemma while_loop_iterate fuel st st' :
  while_loop fuel st = Some st' ->
  exists n, st' = iterate n st /\ loop_cond st' = false.
Proof.
  revert st. induction fuel as [|fuel IH]; simpl; intros st.
  - destruct (loop_cond st) eqn:Hc; [discriminate|].
    intros [= <-]. now exists 0.
  - destruct (loop_cond st) eqn:Hc.
    + intros H. destruct (IH _ H) as (n & -> & Hend).
      exists (S n). simpl. now rewrite Hc.
    + intros [= <-]. now exists 0.
Qed.

Lemma while_loop_S fuel st :
  loop_cond st = true ->
  while_loop (S fuel) st = while_loop fuel (loop_body st).
Proof. intros H. simpl. now rewrite H. Qed.

Lemma while_loop_O st : loop_cond st = true -> while_loop 0 st = None.
Proof. intros H. simpl. now rewrite H. Qed.

(** The result does not depend on how much fuel was given. *)
Lemma while_loop_deterministic fuel1 fuel2 st st1 st2 :
  while_loop fuel1 st = Some st1 ->
  while_loop fuel2 st = Some st2 ->
  st1 = st2.
Proof.
  revert fuel2 st. induction fuel1 as [|fuel1 IH]; intros [|fuel2] st; simpl;
    destruct (loop_cond st); try discriminate; try congruence.
  apply IH.
Qed.

(** One iteration, field by field. *)
Lemma loop_body_cons st c cs d ds :
  creditors st = c :: cs -> debtors st = d :: ds ->
  let payment := Math_min (entry_amount c) (entry_amount d) in
  creditors (loop_body st) =
    (if lt (entry_amount c - payment)%float 0.01%float then cs
     else mkEntry (entry_id c) (entry_amount c - payment)%float :: cs) /\
  debtors (loop_body st) =
    (if lt (entry_amount d - payment)%float 0.01%float then ds
     else mkEntry (entry_id d) (entry_amount d - payment)%float :: ds) /\
  settlements (loop_body st) =
    (if gt payment 0.01%float
     then settlements st ++
            [mkSettlement (entry_id d) (entry_id c) (round2 payment)]
     else settlements st).
Proof.
  intros Hc Hd. unfold loop_body. rewrite Hc, Hd. simpl. auto.
Qed.

Lemma loop_cond_true st :
  loop_cond st = true ->
  exists c cs d ds, creditors st = c :: cs /\ debtors st = d :: ds.
Proof.
  unfold loop_cond. destruct (creditors st) as [|c cs]; [discriminate|].
  destruct (debtors st) as [|d ds]; [discriminate|]. intros _.
  now exists c, cs, d, ds.
Qed.

(** *** Classification *)

Lemma classify_fold wb ks cs ds :
  fold_left (classify wb) ks (cs, ds) =
  (cs ++ creditor_entries wb ks, ds ++ debtor_entries wb ks).
Proof.
  revert cs ds. induction ks as [|k ks IH]; intros cs ds.
  - unfold creditor_entries, debtor_entries. simpl. now rewrite !app_nil_r.
  - simpl. unfold classify at 2. simpl.
    unfold creditor_entries, debtor_entries. simpl.
    destruct (gt (get_number k wb) 0.01%float) eqn:Hgt; simpl.
    + rewrite IH. unfold creditor_entries, debtor_entries.
      now rewrite <- app_assoc.
    + destruct (lt (get_number k wb) (-0.01)%float) eqn:Hlt; simpl;
        rewrite IH; unfold creditor_entries, debtor_entries;
        now rewrite <- ?app_assoc.
Qed.

(** *** Sorting *)

Lemma sort_insert_perm {A} (cmp : A -> A -> number) x l :
  Permutation (sort_insert cmp x l) (x :: l).
Proof.
  induction l as [|y l IH]; simpl; [reflexivity|].
  destruct (gt (cmp x y) 0%float); [|reflexivity].
  rewrite IH. apply perm_swap.
Qed.

Lemma Array_sort_perm {A} (cmp : A -> A -> number) l :
  Permutation (Array_sort cmp l) l.
Proof.
  induction l as [|x l IH]; simpl; [reflexivity|].
  rewrite sort_insert_perm. now constructor.
Qed.

Lemma initial_state_eq wb :
  initial_state wb =
  mkLoopState (Array_sort by_amount_desc (creditor_entries wb (JSObject.keys wb)))
              (Array_sort by_amount_desc (debtor_entries wb (JSObject.keys wb)))
              [].
Proof.
  unfold initial_state. now rewrite classify_fold.
Qed.

Lemma In_creditor_entries wb ks e :
  In e (creditor_entries wb ks) <->
  exists k, In k ks /\ creditor_key wb k /\ e = mkEntry k (get_number k wb).
Proof.
  unfold creditor_entries, creditor_key. rewrite in_map_iff. split.
  - intros (k & <- & Hk). apply List.filter_In in Hk. now exists k.
  - intros (k & Hk & Hgt & ->). exists k. split; [reflexivity|].
    now apply List.filter_In.
Qed.

Lemma In_debtor_entries wb ks e :
  In e (debtor_entries wb ks) <->
  exists k, In k ks /\
            gt (get_number k wb) 0.01%float = false /\ debtor_key wb k /\
            e = mkEntry k (Math_abs (get_number k wb)).
Proof.
  unfold debtor_entries, debtor_key. rewrite in_map_iff. split.
  - intros (k & <- & Hk). apply List.filter_In in Hk. destruct Hk as [Hk Hb].
    apply andb_true_iff in Hb. destruct Hb as [Hb1 Hb2].
    apply negb_true_iff in Hb1. now exists k.
  - intros (k & Hk & Hgt & Hlt & ->). exists k. split; [reflexivity|].
    apply List.filter_In. split; [assumption|]. now rewrite Hgt, Hlt.
Qed.

(** *** Who pays whom *)

Lemma roles_kept_initial wb : roles_kept wb (initial_state wb).
Proof.
  rewrite initial_state_eq. unfold roles_kept. simpl. repeat split.
  - apply List.Forall_forall. intros e He.
    apply (Permutation_in _ (Array_sort_perm _ _)) in He.
    apply In_creditor_entries in He. destruct He as (k & _ & Hk & ->).
    exact Hk.
  - apply List.Forall_forall. intros e He.
    apply (Permutation_in _ (Array_sort_perm _ _)) in He.
    apply In_debtor_entries in He. destruct He as (k & _ & Hgt & Hk & ->).
    simpl. split; [|exact Hk]. unfold creditor_key. now rewrite Hgt.
  - constructor.
Qed.

Lemma roles_kept_step wb st :
  roles_kept wb st -> loop_cond st = true -> roles_kept wb (loop_body st).
Proof.
  intros (Hcs & Hds & Hss) Hcond.
  destruct (loop_cond_true _ Hcond) as (c & cs & d & ds & Ec & Ed).
  destruct (loop_body_cons st c cs d ds Ec Ed) as (E1 & E2 & E3).
  rewrite Ec in Hcs. rewrite Ed in Hds.
  pose proof (Forall_inv Hcs) as Hc. pose proof (Forall_inv_tail Hcs) as Hcs'.
  pose proof (Forall_inv Hds) as Hd. pose proof (Forall_inv_tail Hds) as Hds'.
  simpl in Hc, Hd.
  unfold roles_kept. rewrite E1, E2, E3. split; [|split].
  - case_if; [assumption | now constructor].
  - case_if; [assumption | now constructor].
  - case_if; [|assumption].
    apply List.Forall_app. split; [assumption|]. constructor; [|constructor].
    simpl. now split.
Qed.

Lemma roles_kept_iterate wb n : roles_kept wb (iterate n (initial_state wb)).
Proof.
  apply iterate_invariant.
  - apply roles_kept_initial.
  - apply roles_kept_step.
Qed.

(** *** What is recorded *)

Lemma significant_step st :
  Forall from_significant_payment (settlements st) ->
  Forall from_significant_payment (settlements (loop_body st)).
Proof.
  intros H. unfold loop_body.
  destruct (creditors st) as [|c cs]; [assumption|].
  destruct (debtors st) as [|d ds]; [assumption|]. simpl.
  destruct (gt (Math_min (entry_amount c) (entry_amount d)) 0.01%float) eqn:Hgt;
    [|assumption].
  apply List.Forall_app. split; [assumption|]. constructor; [|constructor].
  exists (Math_min (entry_amount c) (entry_amount d)). now split.
Qed.

Lemma significant_iterate wb n :
  Forall from_significant_payment (settlements (iterate n (initial_state wb))).
Proof.
  apply (iterate_invariant
           (fun st => Forall from_significant_payment (settlements st))).
  - rewrite initial_state_eq. constructor.
  - intros s Hs _. now apply significant_step.
Qed.

End LoopFacts.

(** ** The payments of a run and what they do to the balances *)

Module PaymentFacts.
Import JSObject JSObjectFacts FloatOrder LoopFacts PaymentFloats.

Implicit Types (st : LoopState) (b bn wb : JSObject.t number) (k : string).

Lemma payments_cons n st c cs d ds :
  creditors st = c :: cs -> debtors st = d :: ds ->
  payments (S n) st =
  mkSettlement (entry_id d) (entry_id c)
    (Math_min (entry_amount c) (entry_amount d)) :: payments n (loop_body st).
Proof. intros Ec Ed. simpl. now rewrite Ec, Ed. Qed.

Lemma payments_end n st : loop_cond st = false -> payments n st = [].
Proof.
  unfold loop_cond. destruct n as [|n]; [reflexivity|]. simpl.
  destruct (creditors st); [reflexivity|].
  destruct (debtors st); [reflexivity | discriminate].
Qed.

Lemma recorded_cons p ps :
  recorded (p :: ps) =
  if gt (settlement_amount p) 0.01%float
  then mkSettlement (from p) (to p) (round2 (settlement_amount p)) :: recorded ps
  else recorded ps.
Proof.
  unfold recorded. simpl. now destruct (gt (settlement_amount p) 0.01%float).
Qed.

(** The settlements are the payments recorded. *)
Lemma settlements_iterate n : forall st,
  settlements (iterate n st) = settlements st ++ recorded (payments n st).
Proof.
  induction n as [|n IH]; intros st.
  - simpl. now rewrite app_nil_r.
  - cbn [iterate]. destruct (loop_cond st) eqn:Hc.
    + destruct (loop_cond_true _ Hc) as (c & cs & d & ds & Ec & Ed).
      rewrite (payments_cons n st c cs d ds Ec Ed), recorded_cons, IH.
      destruct (loop_body_cons st c cs d ds Ec Ed) as (_ & _ & E3).
      rewrite E3. cbn [settlement_amount from to].
      destruct (gt (Math_min (entry_amount c) (entry_amount d)) 0.01%float).
      * now rewrite <- app_assoc.
      * reflexivity.
    + rewrite payments_end by assumption. now rewrite app_nil_r.
Qed.

(** Every payment goes from a debtor to a creditor. *)
Lemma payments_roles wb n : forall st,
  roles_kept wb st ->
  Forall (fun p => debtor_key wb (from p) /\ creditor_key wb (to p))
         (payments n st).
Proof.
  induction n as [|n IH]; intros st Hr; [constructor|].
  destruct (loop_cond st) eqn:Hc.
  - destruct (loop_cond_true _ Hc) as (c & cs & d & ds & Ec & Ed).
    rewrite (payments_cons n st c cs d ds Ec Ed). constructor.
    + destruct Hr as (Hcs & Hds & _). rewrite Ec in Hcs. rewrite Ed in Hds.
      apply Forall_inv in Hcs. apply Forall_inv in Hds. simpl. tauto.
    + apply IH. now apply roles_kept_step.
  - rewrite payments_end by assumption. constructor.
Qed.

(** *** Paying one settlement *)

Lemma keys_add_assign k x bn :
  In k (keys bn) -> keys (add_assign k x bn) = keys bn.
Proof. intros Hk. now apply keys_set_own. Qed.

Lemma keys_sub_assign k x bn :
  In k (keys bn) -> keys (sub_assign k x bn) = keys bn.
Proof. intros Hk. now apply keys_set_own. Qed.

Lemma keys_pay s bn :
  In (from s) (keys bn) -> In (to s) (keys bn) -> keys (pay bn s) = keys bn.
Proof.
  intros Hf Ht. unfold pay.
  rewrite keys_sub_assign by (now rewrite keys_add_assign).
  now apply keys_add_assign.
Qed.

Lemma get_pay k s bn :
  In (from s) (keys bn) -> In (to s) (keys bn) ->
  get k (pay bn s) =
  if String.eqb k (to s)
  then Some (get_number (to s) (add_assign (from s) (settlement_amount s) bn)
             - settlement_amount s)%float
  else if String.eqb k (from s)
       then Some (get_number (from s) bn + settlement_amount s)%float
       else get k bn.
Proof.
  intros Hf Ht. unfold pay, sub_assign.
  rewrite get_set_own by (now rewrite keys_add_assign).
  destruct (String.eqb k (to s)); [reflexivity|].
  unfold add_assign. now rewrite get_set_own.
Qed.

Lemma get_number_pay_to s bn :
  In (from s) (keys bn) -> In (to s) (keys bn) -> from s <> to s ->
  get_number (to s) (pay bn s) =
  (get_number (to s) bn - settlement_amount s)%float.
Proof.
  intros Hf Ht Hne. unfold get_number at 1. rewrite get_pay by assumption.
  rewrite String.eqb_refl. f_equal.
  unfold get_number, add_assign. rewrite get_set_own by assumption.
  destruct (String.eqb_spec (to s) (from s)); [congruence | reflexivity].
Qed.

Lemma get_number_pay_from s bn :
  In (from s) (keys bn) -> In (to s) (keys bn) -> from s <> to s ->
  get_number (from s) (pay bn s) =
  (get_number (from s) bn + settlement_amount s)%float.
Proof.
  intros Hf Ht Hne. unfold get_number at 1. rewrite get_pay by assumption.
  destruct (String.eqb_spec (from s) (to s)); [congruence|].
  now rewrite String.eqb_refl.
Qed.

Lemma get_pay_other k s bn :
  In (from s) (keys bn) -> In (to s) (keys bn) ->
  k <> from s -> k <> to s -> get k (pay bn s) = get k bn.
Proof.
  intros Hf Ht Hkf Hkt. rewrite get_pay by assumption.
  destruct (String.eqb_spec k (to s)); [congruence|].
  destruct (String.eqb_spec k (from s)); [congruence | reflexivity].
Qed.

End PaymentFacts.

Module LedgerFacts.
Import JSObject JSObjectFacts FloatOrder LoopFacts PaymentFloats PaymentFacts.

Implicit Types (st : LoopState) (b bn wb : JSObject.t number) (k : string).

Lemma listed_cons st c cs d ds :
  creditors st = c :: cs -> debtors st = d :: ds ->
  listed st = entry_id c :: map entry_id cs ++ entry_id d :: map entry_id ds.
Proof. intros Ec Ed. unfold listed. now rewrite Ec, Ed. Qed.

Lemma sublist_keep_or_drop (r : bool) (x x' : Entry) l :
  entry_id x' = entry_id x ->
  map entry_id (if r then l else x' :: l) `sublist_of` map entry_id (x :: l).
Proof.
  intros E. destruct r; simpl.
  - now apply sublist_cons.
  - rewrite E. reflexivity.
Qed.

Lemma In_keep_or_drop (r : bool) (x' e : Entry) l :
  In e (if r then l else x' :: l) -> (r = false /\ e = x') \/ In e l.
Proof. destruct r; simpl; intuition. Qed.

(** One iteration: the payment is applied to the balances. *)
Lemma ledger_step b st bn c cs d ds :
  creditors st = c :: cs -> debtors st = d :: ds ->
  roles_kept b st -> ledger b st bn ->
  ledger b (loop_body st)
    (pay bn (mkSettlement (entry_id d) (entry_id c)
               (Math_min (entry_amount c) (entry_amount d)))).
Proof.
  intros Ec Ed Hroles L.
  destruct (loop_body_cons st c cs d ds Ec Ed) as (E1 & E2 & _).
  set (p := Math_min (entry_amount c) (entry_amount d)) in *.
  set (s := mkSettlement (entry_id d) (entry_id c) p).
  pose proof (ledger_nodup _ _ _ L) as Hnd.
  rewrite (listed_cons st c cs d ds Ec Ed) in Hnd.
  assert (Hcd : entry_id d <> entry_id c).
  { intros E. apply List.NoDup_cons_iff in Hnd as [Hnin _]. apply Hnin.
    apply in_or_app. right. left. exact E. }
  assert (Hc_keys : In (entry_id c) (keys bn)).
  { rewrite (ledger_keys _ _ _ L). apply (ledger_listed _ _ _ L).
    rewrite (listed_cons st c cs d ds Ec Ed). now left. }
  assert (Hd_keys : In (entry_id d) (keys bn)).
  { rewrite (ledger_keys _ _ _ L). apply (ledger_listed _ _ _ L).
    rewrite (listed_cons st c cs d ds Ec Ed). right.
    apply in_or_app. right. now left. }
  assert (Hac : get_number (entry_id c) bn = entry_amount c).
  { apply (ledger_creditors _ _ _ L). rewrite Ec. now left. }
  assert (Had : get_number (entry_id d) bn = (- entry_amount d)%float).
  { apply (ledger_debtors _ _ _ L). rewrite Ed. now left. }
  assert (Hlc : live (entry_amount c)).
  { apply (ledger_live _ _ _ L). left. rewrite Ec. now left. }
  assert (Hld : live (entry_amount d)).
  { apply (ledger_live _ _ _ L). right. rewrite Ed. now left. }
  assert (Hpc : get_number (entry_id c) (pay bn s) = (entry_amount c - p)%float).
  { rewrite <- Hac. now apply (get_number_pay_to s bn). }
  assert (Hpd : get_number (entry_id d) (pay bn s) = (- entry_amount d + p)%float).
  { rewrite <- Had. now apply (get_number_pay_from s bn). }
  assert (Hother : forall k, k <> entry_id c -> k <> entry_id d ->
                             get k (pay bn s) = get k bn).
  { intros k Hkc Hkd. now apply (get_pay_other k s bn). }
  assert (Hother' : forall k, k <> entry_id c -> k <> entry_id d ->
                              get_number k (pay bn s) = get_number k bn).
  { intros k Hkc Hkd. unfold get_number. now rewrite Hother. }
  assert (Hsub : listed (loop_body st) `sublist_of` listed st).
  { unfold listed. rewrite E1, E2, Ec, Ed.
    apply sublist_app; now apply sublist_keep_or_drop. }
  assert (Hincl : forall k, In k (listed (loop_body st)) -> In k (listed st)).
  { intros k Hk. apply list_elem_of_In.
    eapply elem_of_sublist; [|exact Hsub]. now apply list_elem_of_In. }
  assert (Hcs_ne : forall e, In e cs ->
                     entry_id e <> entry_id c /\ entry_id e <> entry_id d).
  { intros e He. apply List.NoDup_cons_iff in Hnd as [Hnin Hnd'].
    split.
    - intros E. apply Hnin. apply in_or_app. left. rewrite <- E.
      now apply in_map.
    - intros E. apply List.NoDup_remove_2 in Hnd'. apply Hnd'.
      apply in_or_app. left. rewrite <- E. now apply in_map. }
  assert (Hds_ne : forall e, In e ds ->
                     entry_id e <> entry_id c /\ entry_id e <> entry_id d).
  { intros e He. apply List.NoDup_cons_iff in Hnd as [Hnin Hnd'].
    split.
    - intros E. apply Hnin. apply in_or_app. right. right. rewrite <- E.
      now apply in_map.
    - intros E. apply List.NoDup_app_remove_l in Hnd'.
      apply List.NoDup_cons_iff in Hnd' as [Hnin' _]. apply Hnin'.
      rewrite <- E. now apply in_map. }
  constructor.
  - rewrite <- (ledger_keys _ _ _ L). now apply (keys_pay s bn).
  - apply NoDup_ListNoDup. eapply sublist_NoDup; [|exact Hsub].
    apply NoDup_ListNoDup. exact (ledger_nodup _ _ _ L).
  - intros k Hk. apply (ledger_listed _ _ _ L). now apply Hincl.
  - intros e He. rewrite E1 in He.
    apply In_keep_or_drop in He. destruct He as [[_ ->]|He].
    + exact Hpc.
    + destruct (Hcs_ne e He) as [H1 H2]. rewrite Hother' by assumption.
      apply (ledger_creditors _ _ _ L). rewrite Ec. now right.
  - intros e He. rewrite E2 in He.
    apply In_keep_or_drop in He. destruct He as [[Hr ->]|He].
    + simpl. rewrite Hpd. now apply neg_add_sub.
    + destruct (Hds_ne e He) as [H1 H2]. rewrite Hother' by assumption.
      apply (ledger_debtors _ _ _ L). rewrite Ed. now right.
  - intros e [He|He].
    + rewrite E1 in He. apply In_keep_or_drop in He.
      destruct He as [[Hr ->]|He]; [now apply not_lt_live|].
      apply (ledger_live _ _ _ L). left. rewrite Ec. now right.
    + rewrite E2 in He. apply In_keep_or_drop in He.
      destruct He as [[Hr ->]|He]; [now apply not_lt_live|].
      apply (ledger_live _ _ _ L). right. rewrite Ed. now right.
  - intros k Hk.
    destruct (removed_below _ _ Hlc Hld) as [Rc Rd]. fold p in Rc, Rd.
    destruct (String.eqb_spec k (entry_id c)) as [->|Hkc].
    { unfold listed. rewrite E1, Hpc.
      destruct (lt (entry_amount c - p)%float 0.01%float) eqn:Hr.
      - right. now apply Rc.
      - left. apply in_or_app. left. now left. }
    destruct (String.eqb_spec k (entry_id d)) as [->|Hkd].
    { unfold listed. rewrite E2, Hpd.
      destruct (lt (entry_amount d - p)%float 0.01%float) eqn:Hr.
      - right. now apply neg_add_below, Rd.
      - left. apply in_or_app. right. now left. }
    rewrite Hother' by assumption.
    destruct (ledger_left _ _ _ L k Hk) as [Hin|Hbelow]; [left|now right].
    rewrite (listed_cons st c cs d ds Ec Ed) in Hin. unfold listed.
    rewrite E1, E2.
    destruct Hin as [E|Hin]; [congruence|].
    apply in_app_or in Hin. destruct Hin as [Hin|[E|Hin]]; [|congruence|].
    + apply in_or_app. left.
      destruct (lt (entry_amount c - p)%float 0.01%float);
        [assumption | now right].
    + apply in_or_app. right.
      destruct (lt (entry_amount d - p)%float 0.01%float);
        [assumption | now right].
  - intros k Hkc Hkd. rewrite <- (ledger_others _ _ _ L k Hkc Hkd).
    destruct Hroles as (Hcs & Hds & _). rewrite Ec in Hcs. rewrite Ed in Hds.
    apply Forall_inv in Hcs. apply Forall_inv in Hds.
    apply Hother.
    + intros ->. contradiction.
    + intros ->. now destruct Hds.
Qed.

(** The iterations of a run: the payments applied one after the other. *)
Lemma ledger_iterate b n : forall st bn,
  roles_kept b st -> ledger b st bn ->
  ledger b (iterate n st) (fold_left pay (payments n st) bn).
Proof.
  induction n as [|n IH]; intros st bn Hroles L; [exact L|].
  cbn [iterate]. destruct (loop_cond st) eqn:Hc.
  - destruct (loop_cond_true _ Hc) as (c & cs & d & ds & Ec & Ed).
    rewrite (payments_cons n st c cs d ds Ec Ed). cbn [fold_left].
    apply IH; [now apply roles_kept_step|].
    now apply (ledger_step b st bn c cs d ds).
  - rewrite payments_end by assumption. exact L.
Qed.

(** *** The ledger before the first iteration *)

Lemma map_entry_id_creditor_entries wb ks :
  map entry_id (creditor_entries wb ks) =
  List.filter (fun k => gt (get_number k wb) 0.01%float) ks.
Proof.
  unfold creditor_entries. rewrite map_map. simpl. apply map_id.
Qed.

Lemma map_entry_id_debtor_entries wb ks :
  map entry_id (debtor_entries wb ks) =
  List.filter (fun k => negb (gt (get_number k wb) 0.01%float) &&
                        lt (get_number k wb) (-0.01)%float) ks.
Proof.
  unfold debtor_entries. rewrite map_map. simpl. apply map_id.
Qed.

Lemma NoDup_filter_disjoint {A} (P Q : A -> bool) l :
  (forall x, P x = true -> Q x = false) ->
  List.NoDup l -> List.NoDup (List.filter P l ++ List.filter Q l).
Proof.
  intros HPQ Hnd. induction Hnd as [|x l Hx Hnd IH]; simpl; [constructor|].
  assert (HP : ~ In x (List.filter P l))
    by (intros H; apply List.filter_In in H; tauto).
  assert (HQ : ~ In x (List.filter Q l))
    by (intros H; apply List.filter_In in H; tauto).
  destruct (P x) eqn:EP.
  - rewrite (HPQ x EP). simpl. constructor; [|exact IH].
    intros H. apply in_app_or in H. tauto.
  - destruct (Q x); [|exact IH].
    apply List.NoDup_Add with (a := x) (l := List.filter P l ++ List.filter Q l).
    + apply Add_app.
    + split; [exact IH|]. intros H. apply in_app_or in H. tauto.
Qed.

Lemma listed_initial wb :
  Permutation (listed (initial_state wb))
    (List.filter (fun k => gt (get_number k wb) 0.01%float) (keys wb) ++
     List.filter (fun k => negb (gt (get_number k wb) 0.01%float) &&
                           lt (get_number k wb) (-0.01)%float) (keys wb)).
Proof.
  rewrite initial_state_eq. unfold listed. simpl.
  rewrite <- map_entry_id_creditor_entries, <- map_entry_id_debtor_entries.
  apply Permutation_app; apply Permutation_map, Array_sort_perm.
Qed.

Lemma get_number_spread b k : wf b -> get_number k (spread b) = get_number k b.
Proof. intros Hwf. unfold get_number. now rewrite get_spread. Qed.

Lemma gt_In_keys b k x : gt (get_number k b) x = true -> In k (keys b).
Proof.
  unfold get_number. destruct (get k b) as [v|] eqn:E.
  - intros _. now apply get_In_keys in E.
  - unfold gt, undefined_to_number. rewrite FloatAxioms.ltb_spec.
    change (Prim2SF nan) with S754_nan.
    destruct (Prim2SF x) as [s|s| |s m e]; try discriminate;
      destruct s; discriminate.
Qed.

Lemma lt_In_keys b k x : lt (get_number k b) x = true -> In k (keys b).
Proof.
  unfold get_number. destruct (get k b) as [v|] eqn:E.
  - intros _. now apply get_In_keys in E.
  - unfold undefined_to_number. now rewrite lt_nan_l.
Qed.

Lemma roles_kept_ext wb b st :
  (forall k, get_number k wb = get_number k b) ->
  roles_kept wb st -> roles_kept b st.
Proof.
  intros Hnum (Hcs & Hds & Hss). unfold roles_kept, creditor_key, debtor_key in *.
  split; [|split].
  - eapply List.Forall_impl; [|exact Hcs]. intros e. simpl. now rewrite Hnum.
  - eapply List.Forall_impl; [|exact Hds]. intros e. simpl. now rewrite !Hnum.
  - eapply List.Forall_impl; [|exact Hss]. intros e. simpl. now rewrite !Hnum.
Qed.

Lemma ledger_initial b :
  wf b ->
  roles_kept b (initial_state (spread b)) /\
  ledger b (initial_state (spread b)) b.
Proof.
  intros Hwf.
  set (wb := spread b).
  assert (Hnum : forall k, get_number k wb = get_number k b)
    by (intros k; now apply get_number_spread).
  assert (Hroles : roles_kept b (initial_state wb))
    by (apply (roles_kept_ext wb); [exact Hnum | apply roles_kept_initial]).
  split; [exact Hroles|].
  pose proof (listed_initial wb) as Hperm.
  constructor.
  - reflexivity.
  - eapply Permutation_NoDup; [apply Permutation_sym, Hperm|].
    apply NoDup_filter_disjoint; [|apply wf_spread].
    intros k Hk. now rewrite Hk.
  - intros k Hk. apply (Permutation_in _ Hperm) in Hk.
    apply In_keys_spread. fold wb.
    apply in_app_or in Hk. destruct Hk as [Hk|Hk];
      apply List.filter_In in Hk; tauto.
  - intros e He. rewrite initial_state_eq in He. simpl in He.
    apply (Permutation_in _ (Array_sort_perm _ _)) in He.
    apply In_creditor_entries in He. destruct He as (k & _ & _ & ->).
    simpl. now rewrite Hnum.
  - intros e He. rewrite initial_state_eq in He. simpl in He.
    apply (Permutation_in _ (Array_sort_perm _ _)) in He.
    apply In_debtor_entries in He. destruct He as (k & _ & _ & Hd & ->).
    simpl. rewrite <- Hnum. now apply opp_abs_negative.
  - intros e He. rewrite initial_state_eq in He. simpl in He. left.
    destruct He as [He|He];
      apply (Permutation_in _ (Array_sort_perm _ _)) in He.
    + apply In_creditor_entries in He. destruct He as (k & _ & Hk & ->).
      now apply gt_at_least_epsilon.
    + apply In_debtor_entries in He. destruct He as (k & _ & _ & Hk & ->).
      now apply lt_neg_epsilon.
  - intros k Hk. left.
    apply (Permutation_in _ (Permutation_sym Hperm)).
    unfold creditor_key, debtor_key in Hk. rewrite <- !Hnum in Hk.
    destruct (gt (get_number k wb) 0.01%float) eqn:Hgt.
    + apply in_or_app. left. apply List.filter_In. split; [|exact Hgt].
      now apply (gt_In_keys wb k 0.01%float).
    + destruct Hk as [Hk|Hk]; [discriminate|].
      apply in_or_app. right. apply List.filter_In.
      split; [now apply (lt_In_keys wb k (-0.01)%float)|].
      now rewrite Hgt, Hk.
  - reflexivity.
Qed.

End LedgerFacts.

(** ** The settlement resolver: claims C2, C4, C9 and C10 *)

(** What a run returns is what the loop leaves in [settlements], started on
    the sorted working lists of a copy of [balances]. *)
Lemma returned_iterate fuel balances persons h r :
  returned (resolveSettlements fuel balances persons h) = Some r ->
  exists b n,
    h !! balances = Some (NumObj b) /\
    r = settlements (iterate n (initial_state (JSObject.spread b))) /\
    loop_cond (iterate n (initial_state (JSObject.spread b))) = false.
Proof.
  destruct (HeapFacts.resolveSettlements_unfold balances persons h) as [m E].
  rewrite E. destruct (h !! balances) as [[b|m']|]; try discriminate.
  destruct (while_loop fuel _) as [st|] eqn:W; [|discriminate].
  simpl. intros [= <-].
  destruct (LoopFacts.while_loop_iterate _ _ _ W) as (n & -> & Hend).
  now exists b, n.
Qed.

(** C2 as stated fails.  For seven persons sharing one expense of 100 the
    rounded balances are 85.71 for A and -14.29 for each of the six others.
    Applied as the claim words it (the amount taken off the balance of
    [from] and added to that of [to]) the settlements move every balance
    away from 0; applied as payments they leave G at about -0.03, because
    the loop stops as soon as the only creditor is paid off. *)
Lemma seven_way_split_leaves_residue :
  exists r,
    returned (resolveSettlements 7 0 (persons Scenarios.seven)
                (Scenarios.heap_of (calculateBalances (Some Scenarios.seven))))
    = Some r /\
    all_settled
      (fold_left apply_as_worded r (calculateBalances (Some Scenarios.seven)))
    = false /\
    all_settled
      (fold_left pay r (calculateBalances (Some Scenarios.seven))) = false.
Proof.
  eexists. split; [vm_compute; reflexivity|].
  split; vm_compute; reflexivity.
Qed.

(** The settlements are the payments rounded, and applying them is not
    applying the payments.  C paid 2.47 for A and B, who owe 1.24 each
    after rounding.  A pays 1.24; what is left of C's credit is
    1.2300000000000002, which B pays and which is recorded as 1.23.  Both
    lists are empty then.  With the payments B is left at about -0.0099999,
    within 0.01 of 0; with the settlements B is left at
    -0.010000000000000009, which is not. *)
Lemma rounded_amounts_miss_the_threshold :
  let b := calculateBalances (Some Scenarios.odd_cent) in
  let st0 := initial_state (JSObject.spread b) in
  returned (resolveSettlements 2 0 (persons Scenarios.odd_cent) (Scenarios.heap_of b)) =
    Some (recorded (payments 2 st0)) /\
  recorded (payments 2 st0) =
    [mkSettlement "A" "C" 1.24%float; mkSettlement "B" "C" 1.23%float] /\
  creditors (iterate 2 st0) = [] /\ debtors (iterate 2 st0) = [] /\
  (Math_abs (get_number "B" (fold_left pay (payments 2 st0) b)) <? 0.01)%float
    = true /\
  (Math_abs (get_number "B" (fold_left pay (recorded (payments 2 st0)) b))
     <=? 0.01)%float = false.
Proof. repeat split; vm_compute; reflexivity. Qed.

(** C2, amended.  For the balances [b] that [calculateBalances] returns,
    a run of [resolveSettlements] that returns has made a list of payments,
    each from a person whose balance is [< -0.01] to a person whose balance
    is [> 0.01]; the settlements returned are these payments in order,
    those not above 0.01 left out and the amounts rounded to 2 decimals.
    When the function returns all creditors or all debtors have left their
    working list.  Applying the payments to [b] in order, each added to the
    balance of [from] and taken off the balance of [to] (not the other way
    round), gives balances in which an entry still in a working list has
    its working amount (a debtor the opposite of it), every other creditor
    or debtor is within 0.01 of 0, so that all creditors are or all debtors
    are, and every other person has the balance it had. *)
Theorem payments_settle_one_side trip fuel balances persons h r :
  h !! balances = Some (NumObj (calculateBalances trip)) ->
  returned (resolveSettlements fuel balances persons h) = Some r ->
  exists n,
    let b := calculateBalances trip in
    let st := iterate n (initial_state (JSObject.spread b)) in
    let ps := payments n (initial_state (JSObject.spread b)) in
    let paid := fold_left pay ps b in
    r = recorded ps /\
    Forall (fun p => debtor_key b (from p) /\ creditor_key b (to p)) ps /\
    (creditors st = [] \/ debtors st = []) /\
    (forall e, In e (creditors st) ->
       get_number (entry_id e) paid = entry_amount e) /\
    (forall e, In e (debtors st) ->
       get_number (entry_id e) paid = (- entry_amount e)%float) /\
    (forall k, creditor_key b k \/ debtor_key b k ->
       In k (listed st) \/ below_threshold (get_number k paid)) /\
    (forall k, ~ creditor_key b k -> ~ debtor_key b k ->
       JSObject.get k paid = JSObject.get k b) /\
    ((forall k, creditor_key b k -> below_threshold (get_number k paid)) \/
     (forall k, debtor_key b k -> below_threshold (get_number k paid))).
Proof.
  intros Hb H.
  destruct (returned_iterate _ _ _ _ _ H) as (b' & n & Hb' & -> & Hend).
  rewrite Hb in Hb'. injection Hb' as <-.
  exists n. cbv zeta.
  set (b := calculateBalances trip) in *.
  set (st0 := initial_state (JSObject.spread b)) in *.
  destruct (LedgerFacts.ledger_initial b (BalanceFacts.wf_calculateBalances trip))
    as [Hroles0 L0]. fold st0 in Hroles0, L0.
  assert (Hroles : roles_kept b (iterate n st0)).
  { apply LoopFacts.iterate_invariant; [exact Hroles0|].
    intros s Hs Hc. now apply LoopFacts.roles_kept_step. }
  pose proof (LedgerFacts.ledger_iterate b n st0 b Hroles0 L0) as L.
  assert (Hempty : creditors (iterate n st0) = [] \/ debtors (iterate n st0) = []).
  { unfold loop_cond in Hend.
    destruct (creditors (iterate n st0)); [now left|].
    destruct (debtors (iterate n st0)); [now right | discriminate]. }
  split; [|split; [|split; [|split; [|split; [|split; [|split]]]]]].
  - rewrite PaymentFacts.settlements_iterate.
    unfold st0 at 1. now rewrite LoopFacts.initial_state_eq.
  - now apply PaymentFacts.payments_roles.
  - exact Hempty.
  - exact (ledger_creditors _ _ _ L).
  - exact (ledger_debtors _ _ _ L).
  - exact (ledger_left _ _ _ L).
  - exact (ledger_others _ _ _ L).
  - destruct Hroles as (Hcs & Hds & _).
    destruct Hempty as [E|E]; [left|right]; intros k Hk.
    + destruct (ledger_left _ _ _ L k (or_introl Hk)) as [Hin|Hbelow];
        [|exact Hbelow].
      unfold listed in Hin. rewrite E in Hin. simpl in Hin.
      apply in_map_iff in Hin. destruct Hin as (e & <- & He).
      apply (proj1 (List.Forall_forall _ _) Hds) in He. tauto.
    + destruct (ledger_left _ _ _ L k (or_intror Hk)) as [Hin|Hbelow];
        [|exact Hbelow].
      unfold listed in Hin. rewrite E, app_nil_r in Hin.
      apply in_map_iff in Hin. destruct Hin as (e & <- & He).
      apply (proj1 (List.Forall_forall _ _) Hcs) in He.
      exfalso. unfold creditor_key, debtor_key, gt, lt in *.
      rewrite FloatAxioms.ltb_spec in He, Hk.
      destruct (Prim2SF (get_number (entry_id e) b)) as [s|[|]| |[|] m ex];
        discriminate.
Qed.

Lemma payments_settle_one_side_witness :
  exists n,
    [mkSettlement "person_c" "person_a" 200%float;
     mkSettlement "person_c" "person_b" 50%float] =
    recorded (payments n (initial_state
                (JSObject.spread (calculateBalances (Some Scenarios.goa))))).
Proof.
  refine (match payments_settle_one_side (Some Scenarios.goa) 3 0
                  (persons Scenarios.goa)
                  (Scenarios.heap_of (calculateBalances (Some Scenarios.goa)))
                  _ _ _ with
          | ex_intro _ n (conj Hr _) => ex_intro _ n Hr
          end).
  - reflexivity.
  - vm_compute. reflexivity.
Defined.

(** C4 as stated fails: a settlement of exactly 0.01 is returned.  A is owed
    0.30 and B pays 0.29 of it; what is left of A's credit is
    0.010000000000000009, above the threshold, and C's payment of it is
    recorded as 0.01. *)
Lemma one_cent_settlement_returned :
  returned (resolveSettlements 4 0 (persons Scenarios.cents)
              (Scenarios.heap_of (calculateBalances (Some Scenarios.cents))))
  = Some [mkSettlement "B" "A" 0.29%float; mkSettlement "C" "A" 0.01%float] /\
  (settlement_amount (mkSettlement "C" "A" 0.01%float) <=? 0.01)%float = true.
Proof.
  split; vm_compute; reflexivity.
Qed.

(** C4, amended.  No settlement returned has an amount below 0.01.  The
    threshold is applied to the payment before it is rounded: every
    settlement records a payment [> 0.01], and its amount is that payment
    rounded to 2 decimals, which is at least 0.01 (and can be 0.01). *)
Theorem settlements_record_payments_above_threshold
    fuel balances persons h r :
  returned (resolveSettlements fuel balances persons h) = Some r ->
  Forall (fun s => from_significant_payment s /\
                   (0.01 <=? settlement_amount s)%float = true) r.
Proof.
  intros H. destruct (returned_iterate _ _ _ _ _ H) as (b & n & _ & -> & _).
  eapply List.Forall_impl; [|apply LoopFacts.significant_iterate].
  intros s Hs. split; [exact Hs|].
  destruct Hs as (payment & Hgt & ->).
  now apply RoundingBound.round2_at_least_epsilon.
Qed.

Lemma settlements_record_payments_above_threshold_witness :
  Forall (fun s => from_significant_payment s /\
                   (0.01 <=? settlement_amount s)%float = true)
    [mkSettlement "B" "A" 0.29%float; mkSettlement "C" "A" 0.01%float].
Proof.
  apply (settlements_record_payments_above_threshold 4 0
           (persons Scenarios.cents)
           (Scenarios.heap_of (calculateBalances (Some Scenarios.cents)))).
  vm_compute. reflexivity.
Defined.

(** C9.  [resolveSettlements] leaves the object behind [balances] as it
    was: it writes to [personMap] and to nothing else, and reads a copy.  A
    second call on the heap the first one left returns the same array, with
    the same fuel or any other that suffices; the same array is the same
    multiset of transfers. *)
Theorem resolveSettlements_idempotent fuel balances persons h h1 r1 :
  resolveSettlements fuel balances persons h = Some (h1, r1) ->
  h1 !! balances = h !! balances /\
  (exists h2, resolveSettlements fuel balances persons h1 = Some (h2, r1)) /\
  (forall fuel' h2 r2,
     resolveSettlements fuel' balances persons h1 = Some (h2, r2) ->
     r2 = r1 /\ Permutation r2 r1).
Proof.
  intros H.
  destruct (HeapFacts.resolveSettlements_unfold balances persons h) as [m E].
  rewrite E in H. destruct (h !! balances) as [[b|m']|] eqn:Hb; try discriminate.
  destruct (while_loop fuel _) as [st|] eqn:W; [|discriminate].
  injection H as <- <-.
  assert (Hlt : balances < length h) by (now apply lookup_lt_Some in Hb).
  assert (Hb1 : (h ++ [NameObj m; NumObj (JSObject.spread b)]) !! balances
                = Some (NumObj b)).
  { rewrite lookup_app_l by assumption. exact Hb. }
  split; [exact Hb1|]. split.
  - destruct (HeapFacts.resolveSettlements_unfold balances persons
                (h ++ [NameObj m; NumObj (JSObject.spread b)])) as [m2 E2].
    rewrite E2, Hb1, W. eexists. reflexivity.
  - intros fuel' h2 r2 H2.
    destruct (HeapFacts.resolveSettlements_unfold balances persons
                (h ++ [NameObj m; NumObj (JSObject.spread b)])) as [m2 E2].
    rewrite E2, Hb1 in H2.
    destruct (while_loop fuel' _) as [st'|] eqn:W'; [|discriminate].
    injection H2 as <- <-.
    rewrite (LoopFacts.while_loop_deterministic _ _ _ _ _ W' W).
    split; reflexivity.
Qed.

Lemma resolveSettlements_idempotent_witness :
  exists h1,
    h1 !! 0 = Scenarios.heap_of (calculateBalances (Some Scenarios.goa)) !! 0 /\
    exists h2,
      resolveSettlements 3 0 (persons Scenarios.goa) h1 =
      Some (h2, [mkSettlement "person_c" "person_a" 200%float;
                 mkSettlement "person_c" "person_b" 50%float]).
Proof.
  eexists.
  refine (let H := resolveSettlements_idempotent 3 0 (persons Scenarios.goa)
                     (Scenarios.heap_of (calculateBalances (Some Scenarios.goa)))
                     _ _ _ in conj (proj1 H) (proj1 (proj2 H))).
  vm_compute. reflexivity.
Defined.

(** C10.  No settlement pays a person to themself.  This needs no
    assumption on [balances]: the copy the function classifies has each key
    once, [from] is a key whose balance is not [> 0.01], and [to] is a key
    whose balance is [> 0.01]. *)
Theorem no_self_payment fuel balances persons h r :
  returned (resolveSettlements fuel balances persons h) = Some r ->
  Forall (fun s => from s <> to s) r.
Proof.
  intros H. destruct (returned_iterate _ _ _ _ _ H) as (b & n & _ & -> & _).
  destruct (LoopFacts.roles_kept_iterate (JSObject.spread b) n) as (_ & _ & Hs).
  eapply List.Forall_impl; [|exact Hs].
  intros s [[Hfrom _] Hto] Heq. simpl in *. apply Hfrom. now rewrite Heq.
Qed.

Lemma no_self_payment_witness :
  Forall (fun s => from s <> to s)
    [mkSettlement "person_c" "person_a" 200%float;
     mkSettlement "person_c" "person_b" 50%float].
Proof.
  apply (no_self_payment 3 0 (persons Scenarios.goa)
           (Scenarios.heap_of (calculateBalances (Some Scenarios.goa)))).
  vm_compute. reflexivity.
Defined.

(** ** The working lists are sorted, and the loop ends *)

Module ResolverFacts.
Import FloatOrder LoopFacts.

Implicit Types (st : LoopState) (wb : JSObject.t number).

(** *** Sorting *)

Lemma HdRel_sort_insert y x l :
  amount_ge y x -> HdRel amount_ge y l ->
  HdRel amount_ge y (sort_insert by_amount_desc x l).
Proof.
  intros Hyx Hl. destruct l as [|z l]; simpl.
  - now constructor.
  - case_if; constructor; [now inversion Hl | assumption].
Qed.

Lemma sort_insert_sorted x l :
  entry_ok x -> Forall entry_ok l -> Sorted amount_ge l ->
  Sorted amount_ge (sort_insert by_amount_desc x l).
Proof.
  intros Hx Hl Hs. induction Hs as [|y l Hs IH Hhd]; simpl.
  - repeat constructor.
  - pose proof (Forall_inv Hl) as Hy. pose proof (Forall_inv_tail Hl) as Hl'.
    unfold by_amount_desc at 1.
    rewrite (gt_sub_zero _ _ Hx Hy).
    destruct (entry_amount x <? entry_amount y)%float eqn:Hlt.
    + constructor; [now apply IH|].
      apply HdRel_sort_insert; [|assumption].
      unfold amount_ge. now apply ltb_leb.
    + constructor; [now constructor|]. constructor.
      unfold amount_ge. now apply ltb_false_leb.
Qed.

Lemma Array_sort_sorted l :
  Forall entry_ok l -> Sorted amount_ge (Array_sort by_amount_desc l).
Proof.
  induction l as [|x l IH]; simpl; intros Hl; [constructor|].
  pose proof (Forall_inv Hl) as Hx. pose proof (Forall_inv_tail Hl) as Hl'.
  apply sort_insert_sorted; [assumption| |now apply IH].
  apply List.Forall_forall. intros e He.
  apply (Permutation_in _ (Array_sort_perm _ _)) in He.
  now apply (proj1 (List.Forall_forall _ _) Hl').
Qed.

Lemma Array_sort_ok l :
  Forall entry_ok l -> Forall entry_ok (Array_sort by_amount_desc l).
Proof.
  intros Hl. apply List.Forall_forall. intros e He.
  apply (Permutation_in _ (Array_sort_perm _ _)) in He.
  now apply (proj1 (List.Forall_forall _ _) Hl).
Qed.

Lemma creditor_entries_ok wb ks : Forall entry_ok (creditor_entries wb ks).
Proof.
  apply List.Forall_forall. intros e He.
  apply In_creditor_entries in He. destruct He as (k & _ & Hk & ->).
  now apply gt_at_least_epsilon.
Qed.

Lemma debtor_entries_ok wb ks : Forall entry_ok (debtor_entries wb ks).
Proof.
  apply List.Forall_forall. intros e He.
  apply In_debtor_entries in He. destruct He as (k & _ & _ & Hk & ->).
  now apply lt_neg_epsilon.
Qed.

(** In a sorted list of amounts [>= 0.01] the front entry is a largest
    one. *)
Lemma sorted_head_ge x l :
  Sorted amount_ge (x :: l) -> Forall entry_ok (x :: l) ->
  forall z, In z l -> amount_ge x z.
Proof.
  revert x. induction l as [|y l IH]; intros x Hs Hok z Hin; [contradiction|].
  pose proof (Sorted_inv Hs) as [Hs' Hhd].
  pose proof (Forall_inv Hok) as Hx. pose proof (Forall_inv_tail Hok) as Hok'.
  pose proof (Forall_inv Hok') as Hy.
  assert (Hxy : amount_ge x y) by (now inversion Hhd).
  destruct Hin as [<-|Hin]; [exact Hxy|].
  pose proof (IH y Hs' Hok' z Hin) as Hyz.
  assert (Hz : entry_ok z).
  { apply (proj1 (List.Forall_forall _ _) Hok'). now right. }
  unfold amount_ge in *. now apply (leb_trans _ (entry_amount y)).
Qed.

Lemma sorted_head_is_largest l :
  Sorted amount_ge l -> Forall entry_ok l -> head_is_largest l = true.
Proof.
  intros Hs Hok. destruct l as [|x l]; [reflexivity|]. simpl.
  apply forallb_forall. intros z Hz.
  exact (sorted_head_ge x l Hs Hok z Hz).
Qed.

(** *** The invariant of the loop *)

Lemma Forall_tl {A} (P : A -> Prop) l : Forall P l -> Forall P (tl l).
Proof. intros H. destruct l; [assumption | now apply Forall_inv_tail in H]. Qed.

Lemma Forall_head_finite l : Forall entry_finite l -> head_finite l.
Proof. intros H. destruct l; [exact I | now apply Forall_inv in H]. Qed.

Lemma lt_zero_epsilon : lt 0%float 0.01%float = true.
Proof. reflexivity. Qed.

(** One iteration from a state that satisfies the invariant: the invariant
    holds again, and the front entry of at least one list is gone. *)
Lemma loop_body_progress st :
  loop_invariant st -> loop_cond st = true ->
  loop_invariant (loop_body st) /\
  (creditors (loop_body st) = tl (creditors st) \/
   debtors (loop_body st) = tl (debtors st)) /\
  remaining (loop_body st) < remaining st.
Proof.
  intros (Hcs & Hds & Htc & Htd & Hhd) Hcond.
  destruct (loop_cond_true _ Hcond) as (c & cs & d & ds & Ec & Ed).
  destruct (loop_body_cons st c cs d ds Ec Ed) as (E1 & E2 & _).
  unfold loop_invariant, remaining. rewrite E1, E2, Ec, Ed.
  rewrite Ec in Hcs, Htc, Hhd. rewrite Ed in Hds, Htd, Hhd.
  simpl in Htc, Htd, Hhd |- *.
  pose proof (Forall_inv Hcs) as Hc. pose proof (Forall_inv_tail Hcs) as Hcs'.
  pose proof (Forall_inv Hds) as Hd. pose proof (Forall_inv_tail Hds) as Hds'.
  unfold entry_ok in Hc, Hd.
  assert (Hkept : forall x y id,
            at_least_epsilon x -> at_least_epsilon y -> is_infinite y = false ->
            forall l, Forall entry_ok l ->
            Forall entry_ok
              (if lt (x - y)%float 0.01%float then l
               else mkEntry id (x - y)%float :: l)).
  { intros x y id Hx Hy Hfin l Hl.
    destruct (lt (x - y)%float 0.01%float) eqn:Hrest; [assumption|].
    constructor; [|assumption].
    unfold entry_ok. simpl. now apply sub_at_least_epsilon. }
  assert (Hlen : forall (b : bool) (e : Entry) l,
            length (if b then l else e :: l) <= S (length l)).
  { intros [|] e l; simpl; lia. }
  assert (Htl : forall (b : bool) (e : Entry) l,
            Forall entry_finite l ->
            Forall entry_finite (tl (if b then l else e :: l))).
  { intros [|] e l Hl; simpl; [now apply Forall_tl | assumption]. }
  destruct (Math_min_cases _ _ Hc Hd) as [[-> Hlt]|[[-> Hlt]|[-> Heq]]].
  - (* the creditor is the smaller: it is paid off *)
    pose proof (ltb_not_infinite _ _ Hc Hlt) as Hfin.
    rewrite (sub_self _ Hc Hfin), lt_zero_epsilon.
    split; [|split].
    + split; [assumption|]. split; [now apply Hkept|].
      split; [now apply Forall_tl|]. split; [now apply Htl|].
      left. now apply Forall_head_finite.
    + now left.
    + pose proof (Hlen (lt (entry_amount d - entry_amount c)%float 0.01%float)
                    (mkEntry (entry_id d) (entry_amount d - entry_amount c)%float)
                    ds).
      simpl. lia.
  - (* the debtor is the smaller: it has paid all it owed *)
    pose proof (ltb_not_infinite _ _ Hd Hlt) as Hfin.
    rewrite (sub_self _ Hd Hfin), lt_zero_epsilon.
    split; [|split].
    + split; [now apply Hkept|]. split; [assumption|].
      split; [now apply Htl|]. split; [now apply Forall_tl|].
      right. now apply Forall_head_finite.
    + now right.
    + pose proof (Hlen (lt (entry_amount c - entry_amount d)%float 0.01%float)
                    (mkEntry (entry_id c) (entry_amount c - entry_amount d)%float)
                    cs).
      simpl. lia.
  - (* equal amounts: both are settled *)
    assert (Hfin : is_infinite (entry_amount c) = false).
    { destruct Hhd as [H|H]; [exact H|].
      unfold entry_finite in H. now rewrite <- Heq in H. }
    rewrite <- Heq. rewrite (sub_self _ Hc Hfin), lt_zero_epsilon.
    split; [|split].
    + split; [assumption|]. split; [assumption|].
      split; [now apply Forall_tl|]. split; [now apply Forall_tl|].
      left. now apply Forall_head_finite.
    + now left.
    + simpl. lia.
Qed.

Lemma loop_invariant_iterate st n :
  loop_invariant st -> loop_invariant (iterate n st).
Proof.
  intros H. apply iterate_invariant; [assumption|].
  intros s Hs Hc. now apply loop_body_progress.
Qed.

(** From a state that satisfies the invariant the loop ends within as many
    iterations as there are entries. *)
Lemma while_loop_terminates fuel : forall st,
  loop_invariant st -> remaining st <= fuel ->
  exists st', while_loop fuel st = Some st'.
Proof.
  induction fuel as [|fuel IH]; intros st Hinv Hrem; simpl.
  - destruct (loop_cond st) eqn:Hc; [|now exists st].
    destruct (loop_cond_true _ Hc) as (c & cs & d & ds & Ec & Ed).
    unfold remaining in Hrem. rewrite Ec in Hrem. simpl in Hrem. lia.
  - destruct (loop_cond st) eqn:Hc; [|now exists st].
    destruct (loop_body_progress st Hinv Hc) as (Hinv' & _ & Hlt).
    apply IH; [assumption | lia].
Qed.

(** *** The initial state *)

Lemma get_spread_In (b : JSObject.t number) k v :
  JSObject.get k (JSObject.spread b) = Some v -> In (k, v) b.
Proof.
  unfold JSObject.spread.
  assert (H : forall (l acc : JSObject.t number),
    JSObject.get k (fold_left (fun acc kv => JSObject.define (fst kv) (snd kv) acc)
                              l acc) = Some v ->
    In (k, v) l \/ JSObject.get k acc = Some v).
  { induction l as [|[k' v'] l IH]; simpl; intros acc Hget; [now right|].
    destruct (IH _ Hget) as [Hin|Hacc]; [left; now right|].
    rewrite JSObjectFacts.get_define in Hacc.
    destruct (String.eqb_spec k k') as [->|Hne]; [|now right].
    injection Hacc as ->. left. now left. }
  intros Hget. destruct (H b JSObject.empty Hget) as [Hin|Hemp];
    [assumption | discriminate].
Qed.

Lemma get_number_spread_finite (b : JSObject.t number) k :
  Forall (fun v => is_infinite v = false) (JSObject.values b) ->
  is_infinite (get_number k (JSObject.spread b)) = false.
Proof.
  intros Hb. unfold get_number.
  destruct (JSObject.get k (JSObject.spread b)) as [v|] eqn:Hget; [|reflexivity].
  apply get_spread_In in Hget.
  apply (proj1 (List.Forall_forall _ _) Hb).
  unfold JSObject.values. apply in_map_iff. now exists (k, v).
Qed.

Lemma filter_disjoint_length {A} (P Q : A -> bool) l :
  (forall x, P x = true -> Q x = false) ->
  length (List.filter P l) + length (List.filter Q l) <= length l.
Proof.
  intros HPQ. induction l as [|x l IH]; simpl; [lia|].
  destruct (P x) eqn:HP; [rewrite (HPQ x HP)|destruct (Q x)]; simpl; lia.
Qed.

Lemma remaining_initial_state wb :
  remaining (initial_state wb) <= length wb.
Proof.
  rewrite initial_state_eq. unfold remaining. simpl.
  rewrite !(Permutation_length (Array_sort_perm _ _)).
  unfold creditor_entries, debtor_entries. rewrite !length_map.
  rewrite <- (length_map fst wb). fold (JSObject.keys wb).
  apply filter_disjoint_length. intros k Hk. now rewrite Hk.
Qed.

Lemma loop_invariant_initial (b : JSObject.t number) :
  Forall (fun v => is_infinite v = false) (JSObject.values b) ->
  loop_invariant (initial_state (JSObject.spread b)).
Proof.
  intros Hb. rewrite initial_state_eq.
  set (wb := JSObject.spread b).
  assert (Hc : Forall entry_finite (creditor_entries wb (JSObject.keys wb))).
  { apply List.Forall_forall. intros e He.
    apply In_creditor_entries in He. destruct He as (k & _ & _ & ->).
    now apply get_number_spread_finite. }
  assert (Hd : Forall entry_finite (debtor_entries wb (JSObject.keys wb))).
  { apply List.Forall_forall. intros e He.
    apply In_debtor_entries in He. destruct He as (k & _ & _ & _ & ->).
    unfold entry_finite. simpl. rewrite is_infinite_abs.
    now apply get_number_spread_finite. }
  assert (Hperm : forall (P : Entry -> Prop) l,
            Forall P l -> Forall P (Array_sort by_amount_desc l)).
  { intros P l Hl. apply List.Forall_forall. intros e He.
    apply (Permutation_in _ (Array_sort_perm _ _)) in He.
    now apply (proj1 (List.Forall_forall _ _) Hl). }
  unfold loop_invariant. simpl. repeat split.
  - apply Hperm, creditor_entries_ok.
  - apply Hperm, debtor_entries_ok.
  - now apply Forall_tl, Hperm.
  - now apply Forall_tl, Hperm.
  - left. now apply Forall_head_finite, Hperm.
Qed.

End ResolverFacts.

(** ** Infinite amounts *)

Module InfinityFacts.
Import JSObject JSObjectFacts JSNumFacts FloatOrder LoopFacts ResolverFacts.
Import PaymentFloats.

Implicit Types (st : LoopState) (b wb : JSObject.t number) (k : string).

Local Open Scope float_scope.

Lemma leb_infinity x : (infinity <=? x) = true -> x = infinity.
Proof.
  rewrite FloatAxioms.leb_spec. intros H. apply Prim2SF_inj.
  change (Prim2SF infinity) with (S754_infinity false) in *.
  destruct (Prim2SF x) as [s|[|]| |s m e]; try discriminate; reflexivity.
Qed.

Lemma abs_neg_infinity : Math_abs neg_infinity = infinity.
Proof. reflexivity. Qed.

(** *** With [NaN] in front of both lists the loop never ends *)

Lemma fronts_nan_step st : fronts_nan st -> fronts_nan (loop_body st).
Proof.
  intros (c & cs & d & ds & Ec & Ed & Hc & Hd).
  destruct (loop_body_cons st c cs d ds Ec Ed) as (E1 & E2 & _).
  rewrite Hc, Hd in E1, E2.
  change (Math_min nan nan) with nan in E1, E2.
  rewrite nan_sub, lt_nan_l in E1, E2.
  eexists _, cs, _, ds. repeat split; eassumption || reflexivity.
Qed.

Lemma fronts_nan_diverges st : fronts_nan st -> diverges st.
Proof.
  intros H fuel. revert st H. induction fuel as [|fuel IH]; intros st H.
  - apply while_loop_O. destruct H as (c & cs & d & ds & Ec & Ed & _).
    unfold loop_cond. now rewrite Ec, Ed.
  - rewrite while_loop_S.
    + apply IH. now apply fronts_nan_step.
    + destruct H as (c & cs & d & ds & Ec & Ed & _).
      unfold loop_cond. now rewrite Ec, Ed.
Qed.

(** *** An infinite amount comes first *)

Lemma sorted_infinite_front l e :
  Forall entry_ok l -> In e l -> entry_amount e = infinity ->
  exists x xs, Array_sort by_amount_desc l = x :: xs /\ entry_amount x = infinity.
Proof.
  intros Hok Hin He.
  pose proof (Array_sort_sorted l Hok) as Hs.
  pose proof (Array_sort_ok l Hok) as Hok'.
  assert (Hin' : In e (Array_sort by_amount_desc l))
    by (apply (Permutation_in _ (Permutation_sym (Array_sort_perm _ _))), Hin).
  destruct (Array_sort by_amount_desc l) as [|x xs]; [contradiction|].
  exists x, xs. split; [reflexivity|].
  destruct Hin' as [->|Hin']; [assumption|].
  pose proof (sorted_head_ge x xs Hs Hok' e Hin') as Hge.
  unfold amount_ge in Hge. rewrite He in Hge. now apply leb_infinity.
Qed.

Lemma In_values_get b v :
  wf b -> In v (values b) -> exists k, get k b = Some v.
Proof.
  unfold wf, values, keys. induction b as [|[k' v'] b IH]; simpl; intros Hnd Hin.
  - contradiction.
  - apply List.NoDup_cons_iff in Hnd as [Hk' Hnd].
    destruct Hin as [->|Hin].
    + exists k'. now rewrite String.eqb_refl.
    + destruct (IH Hnd Hin) as [k Hk]. exists k.
      destruct (String.eqb_spec k k') as [->|]; [|exact Hk].
      apply get_In_keys in Hk. contradiction.
Qed.

(** With an infinite credit and an infinite debt, both front entries hold
    [NaN] after the first iteration. *)
Lemma infinite_fronts b :
  wf b -> In infinity (values b) -> In neg_infinity (values b) ->
  loop_cond (initial_state (spread b)) = true /\
  fronts_nan (loop_body (initial_state (spread b))).
Proof.
  intros Hwf Hpos Hneg.
  destruct (In_values_get b _ Hwf Hpos) as [kc Hkc].
  destruct (In_values_get b _ Hwf Hneg) as [kd Hkd].
  set (wb := spread b).
  assert (Gc : get_number kc wb = infinity).
  { unfold get_number, wb. now rewrite get_spread, Hkc. }
  assert (Gd : get_number kd wb = neg_infinity).
  { unfold get_number, wb. now rewrite get_spread, Hkd. }
  assert (Kc : In kc (keys wb)).
  { apply In_keys_spread. now apply get_In_keys in Hkc. }
  assert (Kd : In kd (keys wb)).
  { apply In_keys_spread. now apply get_In_keys in Hkd. }
  destruct (sorted_infinite_front (creditor_entries wb (keys wb))
              (mkEntry kc (get_number kc wb)))
    as (c & cs & Ec & Hc).
  { apply creditor_entries_ok. }
  { apply In_creditor_entries. exists kc. repeat split; [assumption|].
    unfold creditor_key. now rewrite Gc. }
  { exact Gc. }
  destruct (sorted_infinite_front (debtor_entries wb (keys wb))
              (mkEntry kd (Math_abs (get_number kd wb))))
    as (d & ds & Ed & Hd).
  { apply debtor_entries_ok. }
  { apply In_debtor_entries. exists kd. repeat split; try assumption.
    - now rewrite Gd.
    - unfold debtor_key. now rewrite Gd. }
  { simpl. now rewrite Gd. }
  rewrite initial_state_eq. fold wb.
  set (st0 := mkLoopState _ _ _).
  assert (Ec0 : creditors st0 = c :: cs) by exact Ec.
  assert (Ed0 : debtors st0 = d :: ds) by exact Ed.
  split.
  - unfold loop_cond. now rewrite Ec0, Ed0.
  - destruct (loop_body_cons st0 c cs d ds Ec0 Ed0) as (E1 & E2 & _).
    rewrite Hc, Hd in E1, E2.
    change (Math_min infinity infinity) with infinity in E1, E2.
    change (infinity - infinity) with nan in E1, E2.
    rewrite lt_nan_l in E1, E2.
    eexists _, cs, _, ds. repeat split; eassumption || reflexivity.
Qed.

End InfinityFacts.

Module SettlingFacts.
Import JSObject JSObjectFacts JSNumFacts FloatOrder LoopFacts ResolverFacts.
Import PaymentFloats InfinityFacts.

Implicit Types (st : LoopState) (b wb : JSObject.t number) (k : string).

Local Open Scope float_scope.

Lemma at_least_epsilon_infinity : at_least_epsilon infinity.
Proof. reflexivity. Qed.

Lemma infinity_sub d :
  at_least_epsilon d -> is_infinite d = false -> infinity - d = infinity.
Proof.
  intros Hd Hfin. destruct (at_least_epsilon_finite d Hd Hfin) as (m & e & E).
  apply Prim2SF_inj. rewrite FloatAxioms.sub_spec, E. reflexivity.
Qed.

Lemma Math_min_infinity_l d :
  at_least_epsilon d -> is_infinite d = false -> Math_min infinity d = d.
Proof.
  intros Hd Hfin.
  destruct (Math_min_cases infinity d at_least_epsilon_infinity Hd)
    as [[_ Hlt]|[[E _]|[_ E]]].
  - rewrite FloatAxioms.ltb_spec in Hlt.
    change (Prim2SF infinity) with (S754_infinity false) in Hlt.
    destruct (Prim2SF d) as [s|[|]| |s m e]; discriminate.
  - exact E.
  - subst d. discriminate.
Qed.

Lemma Math_min_infinity_r d :
  at_least_epsilon d -> is_infinite d = false -> Math_min d infinity = d.
Proof.
  intros Hd Hfin.
  destruct (Math_min_cases d infinity Hd at_least_epsilon_infinity)
    as [[E _]|[[_ Hlt]|[E _]]].
  - exact E.
  - rewrite FloatAxioms.ltb_spec in Hlt.
    change (Prim2SF infinity) with (S754_infinity false) in Hlt.
    destruct (Prim2SF d) as [s|[|]| |s m e]; discriminate.
  - exact E.
Qed.

Lemma lt_infinity_epsilon : lt infinity 0.01 = false.
Proof. reflexivity. Qed.

(** One iteration with an infinite creditor in front and finite debtors:
    the debtor in front has paid all it owed and leaves. *)
Lemma one_sided_creditors_step st :
  one_sided (creditors st) (debtors st) -> loop_cond st = true ->
  one_sided (creditors (loop_body st)) (debtors (loop_body st)) /\
  debtors (loop_body st) = tl (debtors st) /\
  remaining (loop_body st) < remaining st.
Proof.
  intros (Hinf & Hok & Hfin) Hcond.
  destruct (loop_cond_true _ Hcond) as (c & cs & d & ds & Ec & Ed).
  destruct (loop_body_cons st c cs d ds Ec Ed) as (E1 & E2 & _).
  rewrite Ec in Hinf. rewrite Ed in Hok, Hfin. simpl in Hinf.
  pose proof (Forall_inv Hok) as Hd. pose proof (Forall_inv Hfin) as Hdf.
  unfold entry_ok in Hd. unfold entry_finite in Hdf.
  rewrite Hinf, (Math_min_infinity_l _ Hd Hdf) in E1, E2.
  rewrite (infinity_sub _ Hd Hdf), lt_infinity_epsilon in E1.
  rewrite (sub_self _ Hd Hdf), lt_zero_epsilon in E2.
  unfold one_sided, remaining. rewrite E1, E2, Ec, Ed. simpl.
  repeat split; try reflexivity; try lia.
  - now apply Forall_inv_tail in Hok.
  - now apply Forall_inv_tail in Hfin.
Qed.

Lemma one_sided_debtors_step st :
  one_sided (debtors st) (creditors st) -> loop_cond st = true ->
  one_sided (debtors (loop_body st)) (creditors (loop_body st)) /\
  creditors (loop_body st) = tl (creditors st) /\
  remaining (loop_body st) < remaining st.
Proof.
  intros (Hinf & Hok & Hfin) Hcond.
  destruct (loop_cond_true _ Hcond) as (c & cs & d & ds & Ec & Ed).
  destruct (loop_body_cons st c cs d ds Ec Ed) as (E1 & E2 & _).
  rewrite Ed in Hinf. rewrite Ec in Hok, Hfin. simpl in Hinf.
  pose proof (Forall_inv Hok) as Hc. pose proof (Forall_inv Hfin) as Hcf.
  unfold entry_ok in Hc. unfold entry_finite in Hcf.
  rewrite Hinf, (Math_min_infinity_r _ Hc Hcf) in E1, E2.
  rewrite (infinity_sub _ Hc Hcf), lt_infinity_epsilon in E2.
  rewrite (sub_self _ Hc Hcf), lt_zero_epsilon in E1.
  unfold one_sided, remaining. rewrite E1, E2, Ec, Ed. simpl.
  repeat split; try reflexivity; try lia.
  - now apply Forall_inv_tail in Hok.
  - now apply Forall_inv_tail in Hfin.
Qed.

(** One iteration from a settling state: the state is settling again, and
    the front entry of at least one list is gone. *)
Lemma settling_progress st :
  settling st -> loop_cond st = true ->
  settling (loop_body st) /\
  (creditors (loop_body st) = tl (creditors st) \/
   debtors (loop_body st) = tl (debtors st)) /\
  remaining (loop_body st) < remaining st.
Proof.
  intros [H|[H|H]] Hc.
  - destruct (loop_body_progress st H Hc) as (H1 & H2 & H3).
    split; [now left|]. now split.
  - destruct (one_sided_creditors_step st H Hc) as (H1 & H2 & H3).
    split; [right; now left|]. split; [now right | assumption].
  - destruct (one_sided_debtors_step st H Hc) as (H1 & H2 & H3).
    split; [right; now right|]. split; [now left | assumption].
Qed.

Lemma settling_iterate st n : settling st -> settling (iterate n st).
Proof.
  intros H. apply iterate_invariant; [assumption|].
  intros s Hs Hc. now apply settling_progress.
Qed.

Lemma settling_terminates fuel : forall st,
  settling st -> remaining st <= fuel ->
  exists st', while_loop fuel st = Some st'.
Proof.
  induction fuel as [|fuel IH]; intros st Hinv Hrem; simpl.
  - destruct (loop_cond st) eqn:Hc; [|now exists st].
    destruct (loop_cond_true _ Hc) as (c & cs & d & ds & Ec & Ed).
    unfold remaining in Hrem. rewrite Ec in Hrem. simpl in Hrem. lia.
  - destruct (loop_cond st) eqn:Hc; [|now exists st].
    destruct (settling_progress st Hinv Hc) as (Hinv' & _ & Hlt).
    apply IH; [assumption | lia].
Qed.

(** *** The initial state *)

Lemma infinite_value v :
  is_infinite v = true -> v = infinity \/ v = neg_infinity.
Proof.
  unfold is_infinite. intros H.
  destruct (Prim2SF v) as [s|[|]| |s m e] eqn:E; try discriminate.
  - right. apply Prim2SF_inj. now rewrite E.
  - left. apply Prim2SF_inj. now rewrite E.
Qed.

Lemma values_finite_or_not (vs : list number) :
  Forall (fun v => is_infinite v = false) vs \/
  In infinity vs \/ In neg_infinity vs.
Proof.
  induction vs as [|v vs IH]; [left; constructor|].
  destruct (is_infinite v) eqn:Hv.
  - right. destruct (infinite_value v Hv) as [->| ->]; [left|right]; now left.
  - destruct IH as [IH|[IH|IH]].
    + left. now constructor.
    + right. left. now right.
    + right. right. now right.
Qed.

Lemma get_spread_value b k v :
  get k (spread b) = Some v -> In v (values b).
Proof.
  intros H. apply get_spread_In in H. unfold values.
  apply in_map_iff. now exists (k, v).
Qed.

Lemma creditor_entries_value b e :
  In e (creditor_entries (spread b) (keys (spread b))) ->
  In (entry_amount e) (values b).
Proof.
  intros He. apply In_creditor_entries in He.
  destruct He as (k & _ & Hk & ->). simpl.
  unfold creditor_key, get_number in *.
  destruct (get k (spread b)) as [v|] eqn:E; [now apply (get_spread_value b k)|].
  exfalso. unfold gt, undefined_to_number in Hk.
  rewrite FloatAxioms.ltb_spec in Hk. discriminate.
Qed.

Lemma debtor_entries_value b e :
  In e (debtor_entries (spread b) (keys (spread b))) ->
  exists v, In v (values b) /\ lt v (-0.01) = true /\ entry_amount e = Math_abs v.
Proof.
  intros He. apply In_debtor_entries in He.
  destruct He as (k & _ & _ & Hk & ->). simpl.
  unfold debtor_key, get_number in *.
  destruct (get k (spread b)) as [v|] eqn:E.
  - exists v. split; [now apply (get_spread_value b k)|]. now split.
  - exfalso. unfold undefined_to_number in Hk. now rewrite lt_nan_l in Hk.
Qed.

Lemma abs_infinite_negative v :
  lt v (-0.01) = true -> is_infinite (Math_abs v) = true -> v = neg_infinity.
Proof.
  rewrite is_infinite_abs. intros Hlt Hinf.
  destruct (infinite_value v Hinf) as [->| ->]; [discriminate | reflexivity].
Qed.

Lemma creditor_infinite_value v :
  gt v 0.01 = true -> is_infinite v = true -> v = infinity.
Proof.
  intros Hgt Hinf.
  destruct (infinite_value v Hinf) as [->| ->]; [reflexivity | discriminate].
Qed.

Lemma Forall_sorted (P : Entry -> Prop) l :
  Forall P l -> Forall P (Array_sort by_amount_desc l).
Proof.
  intros Hl. apply List.Forall_forall. intros e He.
  apply (Permutation_in _ (Array_sort_perm _ _)) in He.
  now apply (proj1 (List.Forall_forall _ _) Hl).
Qed.

Lemma front_infinite_sorted l :
  Forall entry_ok l ->
  (exists e, In e l /\ entry_amount e = infinity) ->
  front_infinite (Array_sort by_amount_desc l).
Proof.
  intros Hok (e & He & Hinf).
  destruct (sorted_infinite_front l e Hok He Hinf) as (x & xs & -> & Hx).
  exact Hx.
Qed.

Lemma Forall_finite_or_infinite l :
  Forall entry_finite l \/ exists e, In e l /\ is_infinite (entry_amount e) = true.
Proof.
  induction l as [|x l IH]; [left; constructor|].
  destruct (is_infinite (entry_amount x)) eqn:Hx.
  - right. exists x. split; [now left | assumption].
  - destruct IH as [IH|(e & He & Hinf)].
    + left. now constructor.
    + right. exists e. split; [now right | assumption].
Qed.

(** Without both an infinite credit and an infinite debt the initial state
    is a settling one. *)
Lemma settling_initial b :
  ~ In infinity (values b) \/ ~ In neg_infinity (values b) ->
  settling (initial_state (spread b)).
Proof.
  intros Hb. rewrite initial_state_eq.
  set (wb := spread b).
  set (cl := creditor_entries wb (keys wb)).
  set (dl := debtor_entries wb (keys wb)).
  assert (Hcok : Forall entry_ok cl) by apply creditor_entries_ok.
  assert (Hdok : Forall entry_ok dl) by apply debtor_entries_ok.
  assert (Hcinf : forall e, In e cl -> is_infinite (entry_amount e) = true ->
                            entry_amount e = infinity /\ In infinity (values b)).
  { intros e He Hinf.
    pose proof (creditor_entries_value b e He) as Hv.
    apply In_creditor_entries in He. destruct He as (k & _ & Hk & ->).
    simpl in *. unfold creditor_key in Hk.
    pose proof (creditor_infinite_value _ Hk Hinf) as E.
    fold wb in Hv. rewrite E in Hv. now split. }
  assert (Hdinf : forall e, In e dl -> is_infinite (entry_amount e) = true ->
                            entry_amount e = infinity /\ In neg_infinity (values b)).
  { intros e He Hinf.
    destruct (debtor_entries_value b e He) as (v & Hv & Hlt & E).
    rewrite E in Hinf |- *.
    pose proof (abs_infinite_negative v Hlt Hinf) as ->. now split. }
  destruct (Forall_finite_or_infinite cl) as [Hcf|(ec & Hec & Hecinf)];
    destruct (Forall_finite_or_infinite dl) as [Hdf|(ed & Hed & Hedinf)].
  - left. unfold loop_invariant. simpl. repeat split.
    + now apply Array_sort_ok.
    + now apply Array_sort_ok.
    + now apply Forall_tl, Forall_sorted.
    + now apply Forall_tl, Forall_sorted.
    + left. now apply Forall_head_finite, Forall_sorted.
  - right. right. unfold one_sided. simpl. split; [|split].
    + apply front_infinite_sorted; [assumption|].
      exists ed. split; [assumption|]. now apply Hdinf.
    + now apply Array_sort_ok.
    + now apply Forall_sorted.
  - right. left. unfold one_sided. simpl. split; [|split].
    + apply front_infinite_sorted; [assumption|].
      exists ec. split; [assumption|]. now apply Hcinf.
    + now apply Array_sort_ok.
    + now apply Forall_sorted.
  - exfalso. destruct (Hcinf ec Hec Hecinf) as [_ H1].
    destruct (Hdinf ed Hed Hedinf) as [_ H2]. tauto.
Qed.

End SettlingFacts.

(** ** The settlement resolver: claims C7 and C8 *)

(** C7 as stated fails: the lists are sorted once, before the loop, and the
    entry at index 0 stays there until it is settled.  With creditors A = 10
    and B = 9 and debtors C = 8, D = 7 and E = 4, the first iteration leaves
    A with 2 in front of B with 9; the second iteration then pairs D with A,
    not with the largest creditor B. *)
Lemma partly_paid_creditor_stays_in_front :
  loop_cond (iterate 1 (initial_state (JSObject.spread Scenarios.chain))) = true /\
  creditors (iterate 1 (initial_state (JSObject.spread Scenarios.chain))) =
    [mkEntry "A" 2%float; mkEntry "B" 9%float] /\
  head_is_largest
    (creditors (iterate 1 (initial_state (JSObject.spread Scenarios.chain))))
  = false /\
  settlements (iterate 2 (initial_state (JSObject.spread Scenarios.chain))) =
    [mkSettlement "C" "A" 8%float; mkSettlement "D" "A" 2%float].
Proof.
  repeat split; vm_compute; reflexivity.
Qed.

(** C7, amended.  For a balances object [b] (no key twice), a key is a
    creditor exactly when its balance is [> 0.01], with that balance as
    amount, and a debtor exactly when its balance is [< -0.01], with the
    absolute value as amount; both working lists are sorted in descending
    order of amount before the loop, so that the first iteration pairs the
    largest creditor with the largest debtor; and every iteration pairs the
    entries at index 0 of the two lists (the largest ones only as long as
    the front entry has not been partly paid: the lists are not sorted
    again), with
    [payment = Math.min(creditor.amount, debtor.amount)], takes the payment
    off both amounts, and drops an entry whose amount is then below 0.01. *)
Theorem working_lists_and_pairing (b : JSObject.t number) :
  JSObject.wf b ->
  (forall e, In e (creditors (initial_state (JSObject.spread b))) <->
     exists k, In k (JSObject.keys b) /\ creditor_key b k /\
               e = mkEntry k (get_number k b)) /\
  (forall e, In e (debtors (initial_state (JSObject.spread b))) <->
     exists k, In k (JSObject.keys b) /\ debtor_key b k /\
               e = mkEntry k (Math_abs (get_number k b))) /\
  Sorted amount_ge (creditors (initial_state (JSObject.spread b))) /\
  Sorted amount_ge (debtors (initial_state (JSObject.spread b))) /\
  head_is_largest (creditors (initial_state (JSObject.spread b))) = true /\
  head_is_largest (debtors (initial_state (JSObject.spread b))) = true /\
  (forall st c cs d ds,
     creditors st = c :: cs -> debtors st = d :: ds ->
     creditors (loop_body st) =
       (if lt (entry_amount c - Math_min (entry_amount c) (entry_amount d))%float
              0.01%float
        then cs
        else mkEntry (entry_id c)
               (entry_amount c - Math_min (entry_amount c) (entry_amount d))%float
             :: cs) /\
     debtors (loop_body st) =
       (if lt (entry_amount d - Math_min (entry_amount c) (entry_amount d))%float
              0.01%float
        then ds
        else mkEntry (entry_id d)
               (entry_amount d - Math_min (entry_amount c) (entry_amount d))%float
             :: ds) /\
     settlements (loop_body st) =
       (if gt (Math_min (entry_amount c) (entry_amount d)) 0.01%float
        then settlements st ++
               [mkSettlement (entry_id d) (entry_id c)
                  (round2 (Math_min (entry_amount c) (entry_amount d)))]
        else settlements st)).
Proof.
  intros Hwf.
  assert (Hnum : forall k, get_number k (JSObject.spread b) = get_number k b).
  { intros k. unfold get_number. now rewrite JSObjectFacts.get_spread. }
  rewrite LoopFacts.initial_state_eq. simpl. repeat apply conj.
  - intros e. split; intros H.
    + apply (Permutation_in _ (LoopFacts.Array_sort_perm _ _)) in H.
      apply LoopFacts.In_creditor_entries in H.
      destruct H as (k & Hk & Hc & ->). exists k.
      unfold creditor_key in *. rewrite Hnum in *.
      now rewrite JSObjectFacts.In_keys_spread in Hk.
    + apply (Permutation_in _ (Permutation_sym (LoopFacts.Array_sort_perm _ _))).
      apply LoopFacts.In_creditor_entries.
      destruct H as (k & Hk & Hc & ->). exists k.
      unfold creditor_key. rewrite Hnum.
      now rewrite JSObjectFacts.In_keys_spread.
  - intros e. split; intros H.
    + apply (Permutation_in _ (LoopFacts.Array_sort_perm _ _)) in H.
      apply LoopFacts.In_debtor_entries in H.
      destruct H as (k & Hk & _ & Hd & ->). exists k.
      unfold debtor_key in *. rewrite Hnum in *.
      now rewrite JSObjectFacts.In_keys_spread in Hk.
    + apply (Permutation_in _ (Permutation_sym (LoopFacts.Array_sort_perm _ _))).
      apply LoopFacts.In_debtor_entries.
      destruct H as (k & Hk & Hd & ->). exists k.
      unfold debtor_key. rewrite !Hnum.
      rewrite JSObjectFacts.In_keys_spread.
      repeat split; try assumption.
      now apply FloatOrder.lt_neg_epsilon.
  - apply ResolverFacts.Array_sort_sorted, ResolverFacts.creditor_entries_ok.
  - apply ResolverFacts.Array_sort_sorted, ResolverFacts.debtor_entries_ok.
  - apply ResolverFacts.sorted_head_is_largest.
    + apply ResolverFacts.Array_sort_sorted, ResolverFacts.creditor_entries_ok.
    + apply ResolverFacts.Array_sort_ok, ResolverFacts.creditor_entries_ok.
  - apply ResolverFacts.sorted_head_is_largest.
    + apply ResolverFacts.Array_sort_sorted, ResolverFacts.debtor_entries_ok.
    + apply ResolverFacts.Array_sort_ok, ResolverFacts.debtor_entries_ok.
  - intros st c cs d ds Ec Ed. now apply LoopFacts.loop_body_cons.
Qed.

Lemma working_lists_and_pairing_witness :
  In (mkEntry "C" 8%float)
     (debtors (initial_state (JSObject.spread Scenarios.chain))).
Proof.
  refine (proj2 (proj1 (proj2 (working_lists_and_pairing Scenarios.chain _))
                   (mkEntry "C" 8%float)) _).
  - unfold JSObject.wf. simpl.
    repeat (constructor; [simpl; intuition discriminate|]). constructor.
  - exists "C"%string. split; [|split].
    + simpl. auto.
    + reflexivity.
    + reflexivity.
Defined.

(** C8.  The loop does not end on every input: with an infinite credit and
    an infinite debt among the balances [resolveSettlements] never returns.
    The two infinite amounts are in front of their lists; the first payment
    is [Infinity], both amounts become [Infinity - Infinity = NaN], and
    [NaN < 0.01] is false for ever after. *)
Theorem infinite_credit_and_debt_never_settle balances persons h b :
  h !! balances = Some (NumObj b) ->
  JSObject.wf b ->
  In infinity (JSObject.values b) ->
  In neg_infinity (JSObject.values b) ->
  never_returns balances persons h.
Proof.
  intros Hb Hwf Hpos Hneg fuel.
  destruct (HeapFacts.resolveSettlements_unfold balances persons h) as [m E].
  rewrite E, Hb.
  destruct (InfinityFacts.infinite_fronts b Hwf Hpos Hneg) as [Hc Hn].
  assert (D : while_loop fuel (initial_state (JSObject.spread b)) = None).
  { destruct fuel as [|fuel]; [now apply LoopFacts.while_loop_O|].
    rewrite LoopFacts.while_loop_S by assumption.
    now apply InfinityFacts.fronts_nan_diverges. }
  now rewrite D.
Qed.

Lemma infinite_credit_and_debt_never_settle_witness :
  never_returns 0 (persons Scenarios.huge)
    (Scenarios.heap_of (calculateBalances (Some Scenarios.huge))).
Proof.
  apply (infinite_credit_and_debt_never_settle 0 (persons Scenarios.huge)
           (Scenarios.heap_of (calculateBalances (Some Scenarios.huge)))
           (calculateBalances (Some Scenarios.huge))).
  - reflexivity.
  - apply BalanceFacts.wf_calculateBalances.
  - vm_compute. left. reflexivity.
  - vm_compute. right. left. reflexivity.
Defined.

(** X1.  On every other input the loop ends.  For a balances object that does
    not hold both [Infinity] and [-Infinity], [resolveSettlements] returns:
    as many iterations as the object has properties are enough.  In each
    iteration the front entry of at least one list sees its amount drop
    below 0.01 and leaves its list, so the number of entries decreases. *)
Theorem resolveSettlements_terminates balances persons h b :
  h !! balances = Some (NumObj b) ->
  ~ In infinity (JSObject.values b) \/ ~ In neg_infinity (JSObject.values b) ->
  (exists h' r, forall fuel,
      length b <= fuel ->
      resolveSettlements fuel balances persons h = Some (h', r)) /\
  (forall n,
     loop_cond (iterate n (initial_state (JSObject.spread b))) = true ->
     (creditors (loop_body (iterate n (initial_state (JSObject.spread b)))) =
        tl (creditors (iterate n (initial_state (JSObject.spread b)))) \/
      debtors (loop_body (iterate n (initial_state (JSObject.spread b)))) =
        tl (debtors (iterate n (initial_state (JSObject.spread b))))) /\
     remaining (loop_body (iterate n (initial_state (JSObject.spread b)))) <
     remaining (iterate n (initial_state (JSObject.spread b)))).
Proof.
  intros Hb Hfin.
  pose proof (SettlingFacts.settling_initial b Hfin) as Hinv.
  assert (Hrem : remaining (initial_state (JSObject.spread b)) <= length b).
  { etransitivity; [apply ResolverFacts.remaining_initial_state|].
    apply JSObjectFacts.length_spread_le. }
  split.
  - destruct (HeapFacts.resolveSettlements_unfold balances persons h) as [m E].
    destruct (SettlingFacts.settling_terminates (length b) _ Hinv Hrem)
      as [st' Hst'].
    exists (h ++ [NameObj m; NumObj (JSObject.spread b)]), (settlements st').
    intros fuel Hfuel. rewrite E, Hb.
    destruct (SettlingFacts.settling_terminates fuel _ Hinv ltac:(lia))
      as [st'' Hst''].
    rewrite Hst''.
    now rewrite (LoopFacts.while_loop_deterministic _ _ _ _ _ Hst'' Hst').
  - intros n Hc.
    pose proof (SettlingFacts.settling_iterate _ n Hinv) as Hn.
    destruct (SettlingFacts.settling_progress _ Hn Hc) as (_ & Hshift & Hlt).
    now split.
Qed.

Lemma resolveSettlements_terminates_example :
  exists h' r, forall fuel,
    length (calculateBalances (Some Scenarios.huge_for_ten)) <= fuel ->
    resolveSettlements fuel 0 (persons Scenarios.huge_for_ten)
      (Scenarios.heap_of (calculateBalances (Some Scenarios.huge_for_ten)))
    = Some (h', r).
Proof.
  refine (proj1 (resolveSettlements_terminates 0 (persons Scenarios.huge_for_ten)
                   (Scenarios.heap_of
                      (calculateBalances (Some Scenarios.huge_for_ten)))
                   (calculateBalances (Some Scenarios.huge_for_ten)) _ _)).
  - reflexivity.
  - right. vm_compute. intros H.
    repeat (destruct H as [H|H]; [float_neq H|]). exact H.
Defined.

